(** * cage-keeper: the Emergency Shutdown keeper of [src/cage_keeper.py]

    A shallow embedding of [CageKeeper] and the properties of its
    shutdown state machine, auction aggregation, urn scan and
    transaction sequencing. *)

From Stdlib Require Import ZArith List String Bool Lia.
Import ListNotations.
Open Scope Z_scope.

(** ** Numeric types *)

(** Modelled from the spec: the [Wad], [Ray] and [Rad] fixed-point types come
    from [pymaker.numeric], which is not among the sources.  They are integers
    scaled by 10^18, 10^27 and 10^45; [Ray(wad)] rescales by 10^9, the product
    of two rays is rescaled by 10^27 and truncated, and comparisons are those
    of the underlying integers. *)
Module Numeric.
Definition Wad := Z.
Definition Ray := Z.
Definition Rad := Z.

Definition Ray_of_Wad (w : Wad) : Ray := w * 10 ^ 9.
Definition mul (a b : Ray) : Ray := Z.quot (a * b) (10 ^ 27).
Definition gt (a b : Z) : bool := b <? a.
End Numeric.
Import Numeric.

(** ** Times

    [End.when()] answers a [datetime], [End.wait()] a [uint256], and the
    block's timestamp is an integer.  [check_cage] mixes them in double
    precision: [when.timestamp()] is a float, so [whenInUnix + wait] turns
    [wait] into a float and adds as floats, and [now >= thawedCage] compares
    an integer with a float, which Python does on the exact values. *)

(** A [datetime] lies in the years 1 to 9999.  The shutdown time is a block
    time, in whole seconds; it is given by its seconds since the epoch. *)
Definition min_timestamp : Z := -62135596800.

Definition max_timestamp : Z := 253402300799.

Definition in_datetime_range (t : Z) : bool :=
  (min_timestamp <=? t) && (t <=? max_timestamp).

Record datetime := mkDatetime
  { timestamp : Z; timestamp_range : in_datetime_range timestamp = true }.

Record uint256 := mkUint256
  { uint : Z; uint_range : (0 <=? uint) && (uint <? 2 ^ 256) = true }.

(** A double has 53 significant bits.  The floats of [check_cage] are whole
    numbers below 2^258, far below the largest double; each is given by its
    value.  [round53 z] is the double nearest to [z], the one with the even
    significand when two are equally near: the result of [float(z)], and of
    a float operation whose exact result is [z]. *)
Definition float := Z.

Definition round53 (z : Z) : float :=
  let a := Z.abs z in
  if a <? 2 ^ 53 then z
  else
    let ulp := 2 ^ (Z.log2 a - 52) in
    let q := a / ulp in
    let r := a mod ulp in
    let q' :=
      if 2 * r <? ulp then q
      else if ulp <? 2 * r then q + 1
      else if Z.even q then q else q + 1 in
    Z.sgn z * (q' * ulp).

Definition float_of_int (n : Z) : float := round53 n.

Definition float_add (x y : float) : float := round53 (x + y).

(** [datetime.utcfromtimestamp(t)]: the datetime, or an error when [t] is
    not within the years 1 to 9999. *)
Definition utcfromtimestamp (t : float) : option Z :=
  if in_datetime_range t then Some t else None.

(** ** Data model *)

Definition Address := string.

Definition zero_address : Address :=
  "0x0000000000000000000000000000000000000000"%string.

(** [pymaker.dss.Ilk], with the fields the keeper reads.  A collateral of the
    deployment carries [Ilk(name)], whose numeric fields are unset and never
    read before [Vat.ilk] has refreshed them; 0 stands for unset. *)
Record Ilk := mkIlk { name : string; rate : Ray; art : Wad; spot : Ray }.

Definition Ilk_named (n : string) : Ilk := mkIlk n 0 0 0.

Record Urn := mkUrn { address : Address; urn_ilk : Ilk; ink : Wad; urn_art : Wad }.

(** One bid (or sale) of an auction contract. *)
Record Bid := mkBid { id : Z; guy : Address; bid : Rad; tab : Rad }.

(** The auction contracts [cage_active_auctions] tells apart with
    [isinstance]: a [Clipper], a [Flipper], or anything else (the flapper and
    the flopper). *)
Inductive Auction :=
| Clipper (a : Address)
| Flipper (a : Address)
| Flapper (a : Address)
| Flopper (a : Address).

Definition auction_address (h : Auction) : Address :=
  match h with Clipper a | Flipper a | Flapper a | Flopper a => a end.

Record Collateral := mkCollateral
  { ilk : Ilk; clipper : option Address; flipper : option Address }.

(** [DssDeployment]: what is fixed when the keeper starts.  [collaterals]
    lists the values of the [collaterals] dict in its order. *)
Record Dss := mkDss
  { collaterals : list Collateral;
    flapper : Address;
    flopper : Address;
    vow : Address }.

(** The chain as the keeper reads it through the node.  Reads always answer;
    what a submitted call does to the chain is the node's part (see
    [transact]). *)
Record World := mkWorld
  { blockNumber : Z;
    block_timestamp : Z -> Z;
    end_live : bool;
    end_when : datetime;
    end_wait : uint256;
    vat_ilks : string -> Wad * Ray * Ray;   (* art, rate, spot *)
    vat_dai : Address -> Rad;
    spotter_mat : string -> Ray;
    kicks : Address -> Z;
    bids : Address -> Z -> Bid;
    active_auctions : Address -> list Bid;
    chain_urn_history : string -> Z -> list Urn;
    vulcanize_urn_history : string -> option string -> string -> list Urn }.

(** [Vat.ilk(name)]: the ilk named [name] with its on-chain figures. *)
Definition vat_ilk (w : World) (n : string) : Ilk :=
  let '(a, r, s) := vat_ilks w n in mkIlk n r a s.

(** The mutating calls the keeper submits; a collateral type travels as its
    name, an auction as its id. *)
Inductive Tx :=
| FlapYank (i : Z)
| FlopYank (i : Z)
| EndCage (ilk_name : string)
| EndSnip (ilk_name : string) (i : Z)
| EndSkip (ilk_name : string) (i : Z)
| EndSkim (ilk_name : string) (urn : Address)
| VowHeal (rad : Rad)
| EndThaw
| EndFlow (ilk_name : string)
| EsmDeny (usr : Address)
| EsmBurn.

(** What [transact] does: a receipt, [None], or an exception that leaves the
    callback. *)
Inductive Outcome := Mined | Failed | Raised.

(** The lines written to the log (blank lines left out). *)
Inductive Msg :=
| CheckingCage (block : Z)
| SystemCaged
| WillBeThawed (whenThawedCage : Z)
| Confirmations (n : Z)
| FacilitatingCage
| ThawingCage
| BurningMKR
| CollateralsToCheck (names : list string)
| Collected (n : Z) (ilk_name : string)
| Processed (i : Z) (ilk_name : string).

Inductive Event :=
| Logged (m : Msg)
| Sent (tx : Tx) (o : Outcome).

Record Arguments := mkArguments
  { previous_cage : bool;
    psm : string;
    vat_deployment_block : Z;
    vulcanize_endpoint : option string;
    vulcanize_key : option string;
    arg_max_errors : Z }.

(** The fields of [CageKeeper]; [terminated] is the lifecycle's flag. *)
Record Keeper := mkKeeper
  { arguments : Arguments;
    dss : Dss;
    deployment_block : Z;
    max_errors : Z;
    errors : Z;
    cageFacilitated : bool;
    confirmations : Z;
    terminated : bool }.

(** [CageKeeper.__init__] *)
Definition init (args : Arguments) (d : Dss) : Keeper :=
  {| arguments := args;
     dss := d;
     deployment_block := vat_deployment_block args;
     max_errors := arg_max_errors args;
     errors := 0;
     cageFacilitated := previous_cage args;
     confirmations := 0;
     terminated := false |}.

Definition set_cageFacilitated (b : bool) (k : Keeper) : Keeper :=
  {| arguments := arguments k; dss := dss k;
     deployment_block := deployment_block k; max_errors := max_errors k;
     errors := errors k; cageFacilitated := b;
     confirmations := confirmations k; terminated := terminated k |}.

Definition set_confirmations (n : Z) (k : Keeper) : Keeper :=
  {| arguments := arguments k; dss := dss k;
     deployment_block := deployment_block k; max_errors := max_errors k;
     errors := errors k; cageFacilitated := cageFacilitated k;
     confirmations := n; terminated := terminated k |}.

Definition set_terminated (b : bool) (k : Keeper) : Keeper :=
  {| arguments := arguments k; dss := dss k;
     deployment_block := deployment_block k; max_errors := max_errors k;
     errors := errors k; cageFacilitated := cageFacilitated k;
     confirmations := confirmations k; terminated := b |}.

(** A Python dict with string keys, in insertion order: setting a key that
    is present replaces its value in place. *)
Fixpoint dict_set {V} (d : list (string * V)) (key : string) (v : V)
  : list (string * V) :=
  match d with
  | [] => [(key, v)]
  | (k', v') :: d' =>
      if (k' =? key)%string then (k', v) :: d' else (k', v') :: dict_set d' key v
  end.

Fixpoint dict_get {V} (d : list (string * V)) (key : string) : option V :=
  match d with
  | [] => None
  | (k', v') :: d' => if (k' =? key)%string then Some v' else dict_get d' key
  end.

Definition keys {V} (d : list (string * V)) : list string := map fst d.

(** ** The monad of a block callback

    State (the keeper's fields, the chain, the log) with exceptions: an
    exception stops the callback and keeps the state reached. *)

Record State := mkState { self : Keeper; world : World; trace : list Event }.

Inductive Reply (A : Type) :=
| Ok (a : A)
| Exc.
Arguments Ok {A} a.
Arguments Exc {A}.

Definition M (A : Type) := State -> Reply A * State.

Definition ret {A} (a : A) : M A := fun s => (Ok a, s).

Definition bind {A B} (m : M A) (f : A -> M B) : M B :=
  fun s => match m s with
           | (Ok a, s') => f a s'
           | (Exc, s') => (Exc, s')
           end.

Declare Scope keeper_scope.
Delimit Scope keeper_scope with keeper.
Notation "x <- m ;; k" := (bind m (fun x => k))
  (at level 61, m at next level, right associativity) : keeper_scope.
Notation "m ;; k" := (bind m (fun _ => k))
  (at level 61, right associativity) : keeper_scope.
Open Scope keeper_scope.

Definition get_self : M Keeper := fun s => (Ok (self s), s).

Definition modify_self (f : Keeper -> Keeper) : M unit :=
  fun s => (Ok tt, mkState (f (self s)) (world s) (trace s)).

Definition read {A} (f : World -> A) : M A := fun s => (Ok (f (world s)), s).

(** An exception leaving the callback. *)
Definition raise {A} : M A := fun s => (Exc, s).

(** The value a library call answers, or the exception it raises. *)
Definition attempt {A} (o : option A) : M A :=
  match o with
  | Some a => ret a
  | None => raise
  end.

(** [d[key]], a [KeyError] when [key] is absent. *)
Definition item {V} (d : list (string * V)) (key : string) : M V :=
  match dict_get d key with
  | Some v => ret v
  | None => raise
  end.

Definition info (m : Msg) : M unit :=
  fun s => (Ok tt, mkState (self s) (world s) (trace s ++ [Logged m])).

(** [for x in xs: body] *)
Fixpoint for_each {A} (xs : list A) (body : A -> M unit) : M unit :=
  match xs with
  | [] => ret tt
  | x :: xs' => body x ;; for_each xs' body
  end.

(** A loop that updates local variables [b]. *)
Fixpoint fold_each {A B} (xs : list A) (b : B) (body : B -> A -> M B) : M B :=
  match xs with
  | [] => ret b
  | x :: xs' => b' <- body b x ;; fold_each xs' b' body
  end.

Definition when_ (c : bool) (m : M unit) : M unit := if c then m else ret tt.

(** [range(lo, hi)] *)
Definition range (lo hi : Z) : list Z :=
  map (fun i => lo + Z.of_nat i) (seq 0 (Z.to_nat (hi - lo))).

(** Truth value of a string. *)
Definition truthy (s : string) : bool := negb (s =? EmptyString)%string.


(** The dict [all_active_auctions] returns. *)
Record Auctions := mkAuctions
  { clips : list (string * list Bid);
    flips : list (string * list Bid);
    flaps : list Bid;
    flops : list Bid }.

(** ** The keeper *)

(** [cage_active_auctions]: the loops append to [active_auctions]; the
    [index += 1] at the end of a loop body rebinds a variable that [range]
    overwrites, so it has no effect. *)
Definition cage_active_auctions (w : World) (parentObj : Auction) : list Bid :=
  let auction_count := kicks w (auction_address parentObj) + 1 in
  match parentObj with
  | Clipper a => active_auctions w a
  | Flipper a =>
      fold_left
        (fun active index =>
           let b := bids w a index in
           if negb (guy b =? zero_address)%string
           then (if bid b <? tab b then active ++ [b] else active)
           else active)
        (range 1 auction_count) []
  | Flapper a | Flopper a =>
      fold_left
        (fun active index =>
           let b := bids w a index in
           if negb (guy b =? zero_address)%string
           then active ++ [b]
           else active)
        (range 1 auction_count) []
  end.

(** [all_active_auctions] *)
Definition all_active_auctions (d : Dss) (w : World) : Auctions :=
  let '(clips, flips) :=
    fold_left
      (fun '(clips, flips) collateral =>
         match clipper collateral, flipper collateral with
         | Some c, _ =>
             (dict_set clips (name (ilk collateral))
                (cage_active_auctions w (Clipper c)), flips)
         | None, Some f =>
             (clips, dict_set flips (name (ilk collateral))
                       (cage_active_auctions w (Flipper f)))
         | None, None => (clips, flips)
         end)
      (collaterals d) ([], []) in
  {| clips := clips;
     flips := flips;
     flaps := cage_active_auctions w (Flapper (flapper d));
     flops := cage_active_auctions w (Flopper (flopper d)) |}.

(** The filters of [get_collaterals]. *)
Definition collaterals_with_debt (d : Dss) (w : World) : list Collateral :=
  let collaterals_filtered :=
    filter (fun l => negb (name (ilk l) =? "SAI")%string) (collaterals d) in
  filter (fun l => gt (art (vat_ilk w (name (ilk l)))) 0) collaterals_filtered.

(** The test of [get_underwater_urns] on an urn whose ilk has been refreshed. *)
Definition usdDebt (urn : Urn) : Ray :=
  mul (Ray_of_Wad (urn_art urn)) (rate (urn_ilk urn)).

Definition usdCollateral (urn : Urn) (mat : Ray) : Ray :=
  mul (mul (Ray_of_Wad (ink urn)) (spot (urn_ilk urn))) mat.

Definition set_urn_ilk (i : Ilk) (u : Urn) : Urn :=
  {| address := address u; urn_ilk := i; ink := ink u; urn_art := urn_art u |}.

(** [urn_history.get_urns().values()] for the provider the arguments select. *)
Definition get_urns (k : Keeper) (w : World) (i : Ilk) : list Urn :=
  match vulcanize_endpoint (arguments k) with
  | Some endpoint =>
      if truthy endpoint
      then vulcanize_urn_history w endpoint (vulcanize_key (arguments k)) (name i)
      else chain_urn_history w (name i) (deployment_block k)
  | None => chain_urn_history w (name i) (deployment_block k)
  end.

(** ** A deployment to run the keeper on

    Three collateral types: ETH-A with a flipper and debt, BAT-A with a
    clipper and no debt, and SAI with debt; two bids that have a bidder and
    one that has none; two ETH-A positions, the second without collateral.
    Every block finds the chain shut down and the wait over. *)

Definition ex_bids (i : Z) : Bid :=
  if i =? 1 then mkBid 1 "0xA1"%string 80 100
  else if i =? 2 then mkBid 2 "0xA2"%string 100 100
  else mkBid i zero_address 10 100.

Definition ex_world : World :=
  {| blockNumber := 7;
     block_timestamp := fun _ => 1000;
     end_live := false;
     end_when := mkDatetime 900 eq_refl;
     end_wait := mkUint256 50 eq_refl;
     vat_ilks := fun n =>
       if (n =? "ETH-A")%string then (5 * 10 ^ 18, 10 ^ 27, 150 * 10 ^ 27)
       else if (n =? "SAI")%string then (7 * 10 ^ 18, 10 ^ 27, 10 ^ 27)
       else (0, 10 ^ 27, 10 ^ 27);
     vat_dai := fun _ => 3;
     spotter_mat := fun _ => 15 * 10 ^ 26;
     kicks := fun _ => 3;
     bids := fun _ => ex_bids;
     active_auctions := fun _ => [ex_bids 2];
     chain_urn_history := fun n _ =>
       [mkUrn "0xU1"%string (Ilk_named n) (10 * 10 ^ 18) (5 * 10 ^ 18);
        mkUrn "0xU2"%string (Ilk_named n) 0 (5 * 10 ^ 18)];
     vulcanize_urn_history := fun _ _ _ => [] |}.

(** The same chain with other times: the shutdown at the epoch, a wait of
    2^53 + 1 seconds and a block one second before the wait is over; and a
    wait of 10^12 seconds, which ends after the year 9999. *)
Definition ex_world_at (when : datetime) (wait : uint256) (now : Z) : World :=
  {| blockNumber := blockNumber ex_world;
     block_timestamp := fun _ => now;
     end_live := end_live ex_world;
     end_when := when;
     end_wait := wait;
     vat_ilks := vat_ilks ex_world;
     vat_dai := vat_dai ex_world;
     spotter_mat := spotter_mat ex_world;
     kicks := kicks ex_world;
     bids := bids ex_world;
     active_auctions := active_auctions ex_world;
     chain_urn_history := chain_urn_history ex_world;
     vulcanize_urn_history := vulcanize_urn_history ex_world |}.


Definition ex_world_far_thaw : World :=
  ex_world_at (mkDatetime 900 eq_refl) (mkUint256 (10 ^ 12) eq_refl) 1000.

Definition ex_dss : Dss :=
  {| collaterals :=
       [mkCollateral (Ilk_named "ETH-A") None (Some "0xF1"%string);
        mkCollateral (Ilk_named "BAT-A") (Some "0xC1"%string) None;
        mkCollateral (Ilk_named "SAI") None None];
     flapper := "0xFLAP"%string;
     flopper := "0xFLOP"%string;
     vow := "0xVOW"%string |}.

(** [--psm 0xPSM], then with [--previous-cage], then with [--max-errors 1]. *)
Definition ex_arguments : Arguments :=
  mkArguments false "0xPSM" 0 None None 100.

Definition ex_arguments_previous_cage : Arguments :=
  mkArguments true "0xPSM" 0 None None 100.

Definition ex_arguments_one_error : Arguments :=
  mkArguments false "0xPSM" 0 None None 1.

(** [--max-errors 0]. *)
Definition ex_arguments_no_budget : Arguments :=
  mkArguments false "0xPSM" 0 None None 0.

(** The keeper once the shutdown is final, and once it has facilitated. *)
Definition ex_final : Keeper := set_confirmations 12 (init ex_arguments ex_dss).

Definition ex_facilitated : Keeper := set_cageFacilitated true ex_final.

(** A node that mines every call, and one on which every call fails. *)
Definition ex_node (tx : Tx) (w : World) : World * Outcome := (w, Mined).

Definition ex_node_failing (tx : Tx) (w : World) : World * Outcome := (w, Failed).

Section Keeper.

(** The node and the chain behind it: what submitting a call does to the
    chain, and what [transact] answers. *)
Variable node : Tx -> World -> World * Outcome.

(** [call.transact(gas_price=...)]; the keeper drops the receipt. *)
Definition transact (tx : Tx) : M unit :=
  fun s =>
    let '(w', o) := node tx (world s) in
    let s' := mkState (self s) w' (trace s ++ [Sent tx o]) in
    match o with
    | Raised => (Exc, s')
    | Mined | Failed => (Ok tt, s')
    end.

(** [get_collaterals] *)
Definition get_collaterals : M (list Collateral) :=
  k <- get_self ;;
  cs <- read (collaterals_with_debt (dss k)) ;;
  info (CollateralsToCheck (map (fun c => name (ilk c)) cs)) ;;
  ret cs.

(** [get_underwater_urns], innermost first: the body of the loop over the
    urns of [i], which carries the list being built and the count of urns
    seen; *)
Definition scan_urn (i : Ilk) (acc : list Urn * Z) (urn : Urn)
  : M (list Urn * Z) :=
  let '(underwater_urns, n) := acc in
  fresh <- read (fun w => vat_ilk w (name (urn_ilk urn))) ;;
  let urn := set_urn_ilk fresh urn in
  mat <- read (fun w => spotter_mat w (name (urn_ilk urn))) ;;
  let underwater_urns :=
    if gt (usdDebt urn) (usdCollateral urn mat)
    then underwater_urns ++ [urn]
    else underwater_urns in
  let n := n + 1 in
  when_ (n mod 100 =? 0) (info (Processed n (name i))) ;;
  ret (underwater_urns, n).

(** the body of the loop over the ilks; *)
Definition scan_ilk (k : Keeper) (underwater_urns : list Urn) (i : Ilk)
  : M (list Urn) :=
  urns <- read (fun w => get_urns k w i) ;;
  info (Collected (Z.of_nat (List.length urns)) (name i)) ;;
  r <- fold_each urns (underwater_urns, 0) (scan_urn i) ;;
  ret (fst r).

(** and the function. *)
Definition get_underwater_urns (ilks : list Ilk) : M (list Urn) :=
  k <- get_self ;;
  fold_each ilks [] (scan_ilk k).

(** [yank_auctions] *)
Definition yank_auctions (flapBids flopBids : list Bid) : M unit :=
  for_each flapBids (fun b => transact (FlapYank (id b))) ;;
  for_each flopBids (fun b => transact (FlopYank (id b))).

(** [facilitate_processing_period] *)
Definition facilitate_processing_period : M unit :=
  info FacilitatingCage ;;
  cs <- get_collaterals ;;
  let ilks := map ilk cs in
  k <- get_self ;;
  auctions <- read (all_active_auctions (dss k)) ;;
  yank_auctions (flaps auctions) (flops auctions) ;;
  for_each ilks (fun i => transact (EndCage (name i))) ;;
  for_each (keys (clips auctions))
    (fun key =>
       i <- read (fun w => vat_ilk w key) ;;
       sales <- item (clips auctions) key ;;
       for_each sales (fun b => transact (EndSnip (name i) (id b)))) ;;
  for_each (keys (flips auctions))
    (fun key =>
       i <- read (fun w => vat_ilk w key) ;;
       bs <- item (flips auctions) key ;;
       for_each bs (fun b => transact (EndSkip (name i) (id b)))) ;;
  urns <- get_underwater_urns ilks ;;
  for_each urns (fun u => transact (EndSkim (name (urn_ilk u)) (address u))).

(** [thaw_cage] *)
Definition thaw_cage : M unit :=
  info ThawingCage ;;
  cs <- get_collaterals ;;
  k <- get_self ;;
  dai <- read (fun w => vat_dai w (vow (dss k))) ;;
  when_ (gt dai 0) (transact (VowHeal dai)) ;;
  transact EndThaw ;;
  for_each cs
    (fun collateral =>
       transact (EndFlow (name (ilk collateral))) ;;
       match clipper collateral with
       | Some a => transact (EsmDeny a)
       | None => ret tt
       end ;;
       match flipper collateral with
       | Some a => transact (EsmDeny a)
       | None => ret tt
       end) ;;
  when_ (truthy (psm (arguments k)))
    (transact (EndFlow "PSM-USDC-A"%string) ;;
     transact (EsmDeny (psm (arguments k)))).

(** [check_cage] *)
Definition check_cage : M unit :=
  blockNumber <- read blockNumber ;;
  info (CheckingCage blockNumber) ;;
  live <- read end_live ;;
  k <- get_self ;;
  if negb live && (confirmations k =? 12) then
    info SystemCaged ;;
    when <- read end_when ;;
    wait <- read end_wait ;;
    let whenInUnix : float := timestamp when in
    now <- read (fun w => block_timestamp w blockNumber) ;;
    let thawedCage := float_add whenInUnix (float_of_int (uint wait)) in
    if negb (cageFacilitated k) then
      modify_self (set_cageFacilitated true) ;;
      facilitate_processing_period
    else if now >=? thawedCage then
      thaw_cage ;;
      info BurningMKR ;;
      transact EsmBurn
    else
      whenThawedCage <- attempt (utcfromtimestamp thawedCage) ;;
      info (WillBeThawed whenThawedCage)
  else if negb live && (confirmations k <? 13) then
    modify_self (set_confirmations (confirmations k + 1)) ;;
    k' <- get_self ;;
    info (Confirmations (confirmations k'))
  else ret tt.

(** [process_block]; [lifecycle.terminate()] raises the lifecycle's flag. *)
Definition process_block : M unit :=
  k <- get_self ;;
  if errors k >=? max_errors k then
    modify_self (set_terminated true)
  else
    check_cage.

(** ** Runs

    The lifecycle calls [process_block] once per new block, one call at a
    time, until it is terminated; an exception ends the call, not the
    keeper.  A run is given by the chain as found at each block. *)

Record Step := mkStep
  { before : Keeper; at_block : World; reply : Reply unit;
    events : list Event; after : Keeper }.

Definition block_step (k : Keeper) (w : World) : Step :=
  let '(r, s) := process_block (mkState k w []) in
  mkStep k w r (trace s) (self s).

Fixpoint history (k : Keeper) (blocks : list World) : list Step :=
  match blocks with
  | [] => []
  | w :: blocks' =>
      if terminated k then []
      else let st := block_step k w in st :: history (after st) blocks'
  end.

(** ** What a block invocation shows *)

(** The calls submitted, in order, whatever became of them. *)
Definition sent (evs : list Event) : list Tx :=
  flat_map (fun e => match e with Sent tx _ => [tx] | Logged _ => [] end) evs.

Definition prefix {A} (l1 l2 : list A) : Prop := exists rest, l2 = l1 ++ rest.

(** The calls of the facilitation phase and those of the thaw phase. *)
Definition facilitation_call (tx : Tx) : bool :=
  match tx with
  | FlapYank _ | FlopYank _ | EndCage _ | EndSnip _ _ | EndSkip _ _
  | EndSkim _ _ => true
  | _ => false
  end.

Definition thaw_call (tx : Tx) : bool :=
  match tx with
  | VowHeal _ | EndThaw | EndFlow _ | EsmDeny _ | EsmBurn => true
  | _ => false
  end.

(** An event of the facilitation phase: its banner in the log, or one of its
    calls. *)
Definition facilitation_event (e : Event) : bool :=
  match e with
  | Logged FacilitatingCage => true
  | Logged _ => false
  | Sent tx _ => facilitation_call tx
  end.

Definition thaw_event (e : Event) : bool :=
  match e with
  | Logged _ => false
  | Sent tx _ => thaw_call tx
  end.

(** The invocation computed or submitted facilitation work. *)
Definition facilitates (st : Step) : bool :=
  existsb facilitation_event (events st).

(** The invocation submitted a call of the thaw phase. *)
Definition thaws (st : Step) : bool := existsb thaw_event (events st).

(** The invocation found [live] false with the counter at 12. *)
Definition final_block (st : Step) : bool :=
  negb (end_live (at_block st)) && (confirmations (before st) =? 12).

(** The invocation switched the latch from false to true. *)
Definition latches (st : Step) : bool :=
  negb (cageFacilitated (before st)) && cageFacilitated (after st).

(** The block's time has reached [when + wait]. *)
Definition thaw_time_reached (w : World) : bool :=
  block_timestamp w (blockNumber w) >=? timestamp (end_when w) + uint (end_wait w).

(** The time [check_cage] computes for the thaw, and its test of the block's
    time against it. *)
Definition thawedCage (w : World) : float :=
  float_add (timestamp (end_when w)) (float_of_int (uint (end_wait w))).

Definition thaw_due (w : World) : bool :=
  block_timestamp w (blockNumber w) >=? thawedCage w.

(** Positions, counted from [n], of the elements that satisfy [p]. *)
Fixpoint indices_from {A} (p : A -> bool) (n : nat) (l : list A) : list nat :=
  match l with
  | [] => []
  | x :: l' => (if p x then [n] else []) ++ indices_from p (S n) l'
  end.

Definition indices {A} (p : A -> bool) (l : list A) : list nat :=
  indices_from p 0 l.

(** [m] leaves the keeper's fields alone and only adds events that satisfy
    [P] to the log. *)
Definition frames {A} (P : Event -> Prop) (m : M A) : Prop :=
  forall s,
    self (snd (m s)) = self s /\
    exists evs, trace (snd (m s)) = trace s ++ evs /\ Forall P evs.

(** ** Specifications *)

(** Either the error check lets [check_cage] run, or the counter of
    confirmations has not left 0. *)
Definition counting (k : Keeper) : Prop :=
  errors k < max_errors k \/ confirmations k = 0.

(** The claim as the spec words it: the invocations that compute or submit
    facilitation work are exactly the first one that reads [live] false with
    the counter at 12. *)
Definition facilitates_at_first_final (h : list Step) : Prop :=
  indices facilitates h = firstn 1 (indices final_block h).

(** From state [s], [m] leaves the keeper's fields alone and submits the
    calls of [plan] in order: all of them when it returns, the first few when
    a call raises. *)
Definition submits_at {A} (m : M A) (s : State) (plan : list Tx) : Prop :=
  self (snd (m s)) = self s /\
  exists evs,
    trace (snd (m s)) = trace s ++ evs /\
    match fst (m s) with
    | Ok _ => sent evs = plan
    | Exc => prefix (sent evs) plan
    end.

Definition submits {A} (m : M A) (plan : list Tx) : Prop :=
  forall s, submits_at m s plan.

(** As [submits_at], with further calls that all satisfy [P] after [plan]. *)
Definition submits_then {A} (P : Tx -> Prop) (m : M A) (s : State)
    (plan : list Tx) : Prop :=
  self (snd (m s)) = self s /\
  exists evs rest,
    trace (snd (m s)) = trace s ++ evs /\ Forall P rest /\
    match fst (m s) with
    | Ok _ => sent evs = plan ++ rest
    | Exc => prefix (sent evs) (plan ++ rest)
    end.

(** The state once a line has been logged. *)
Definition log (s : State) (m : Msg) : State :=
  mkState (self s) (world s) (trace s ++ [Logged m]).

(** The permission revocations for one collateral type. *)
Definition denies (c : Collateral) : list Tx :=
  match clipper c with Some a => [EsmDeny a] | None => [] end ++
  match flipper c with Some a => [EsmDeny a] | None => [] end.

(** The thaw phase in the order the spec gives: the heal when the vow holds
    Dai, the thaw, the fix and the revocations of each collateral type with
    debt, then the peg module when one is configured. *)
Definition thaw_calls (k : Keeper) (w : World) : list Tx :=
  let dai := vat_dai w (vow (dss k)) in
  (if 0 <? dai then [VowHeal dai] else []) ++
  [EndThaw] ++
  flat_map (fun c => EndFlow (name (ilk c)) :: denies c)
    (collaterals_with_debt (dss k) w) ++
  (if truthy (psm (arguments k))
   then [EndFlow "PSM-USDC-A"%string; EsmDeny (psm (arguments k))]
   else []).

(** The same with the burn, which [check_cage] submits last. *)
Definition thaw_order (k : Keeper) (w : World) : list Tx :=
  thaw_calls k w ++ [EsmBurn].

(** The cancellations of the surplus and the debt auctions. *)
Definition yanks (a : Auctions) : list Tx :=
  map (fun b => FlapYank (id b)) (flaps a) ++
  map (fun b => FlopYank (id b)) (flops a).

(** [End.cage] for each collateral type of [cs]. *)
Definition cages (cs : list Collateral) : list Tx :=
  map (fun c => EndCage (name (ilk c))) cs.

(** The calls that settle collateral auctions and positions by force. *)
Definition settling_call (tx : Tx) : bool :=
  match tx with
  | EndSnip _ _ | EndSkip _ _ | EndSkim _ _ => true
  | _ => false
  end.

(** The claim as the spec words it: once a block has submitted the thaw and
    the burn, no later block of the run submits a call of the thaw phase. *)
Definition thawed_is_terminal (h : list Step) : Prop :=
  forall i j st_i st_j,
    nth_error h i = Some st_i -> nth_error h j = Some st_j -> (i < j)%nat ->
    In EndThaw (sent (events st_i)) -> In EsmBurn (sent (events st_i)) ->
    thaws st_j = false.

(** The keeper is past facilitation: every later block finds it so. *)
Definition ready_to_thaw (k : Keeper) : Prop :=
  errors k < max_errors k /\ confirmations k = 12 /\ cageFacilitated k = true.

(** The claim as the spec words it: the thaw phase fixes every collateral
    type and revokes the permission of its auction contract. *)
Definition fixes_every_collateral (st : Step) : Prop :=
  forall c,
    In c (collaterals (dss (before st))) ->
    In (EndFlow (name (ilk c))) (sent (events st)) /\
    (forall a, clipper c = Some a \/ flipper c = Some a ->
               In (EsmDeny a) (sent (events st))).

(** The claim as the spec words it: the facilitation phase cages every
    collateral type whose debt is positive. *)
Definition cages_every_indebted (st : Step) : Prop :=
  forall c,
    In c (collaterals (dss (before st))) ->
    0 < art (vat_ilk (at_block st) (name (ilk c))) ->
    In (EndCage (name (ilk c))) (sent (events st)).

(** The bids of an auction contract at ids 1 to [kicks], in order. *)
Definition bids_upto (w : World) (a : Address) : list Bid :=
  map (bids w a) (range 1 (kicks w a + 1)).

Definition has_bidder (b : Bid) : bool := negb (guy b =? zero_address)%string.

(** Eligible for [End.skip]: a bidder, and a bid below the tab. *)
Definition skippable (b : Bid) : bool := has_bidder b && (bid b <? tab b).

(** A position as the scan sees it: its ilk read again from the vat. *)
Definition refreshed (w : World) (u : Urn) : Urn :=
  set_urn_ilk (vat_ilk w (name (urn_ilk u))) u.

(** Debt value above risk-adjusted collateral value, in rays. *)
Definition underwater (w : World) (u : Urn) : bool :=
  usdCollateral u (spotter_mat w (name (urn_ilk u))) <? usdDebt u.

Definition underwater_urns (k : Keeper) (w : World) (ilks : list Ilk) : list Urn :=
  flat_map (fun i => filter (underwater w) (map (refreshed w) (get_urns k w i)))
    ilks.

(** ** Further specifications *)

(** The keeper a run leaves behind. *)
Definition keeper_after (k : Keeper) (blocks : list World) : Keeper :=
  last (map after (history k blocks)) k.

(** How many of the blocks find [live] false. *)
Definition caged_blocks (blocks : list World) : Z :=
  Z.of_nat (List.length (filter (fun w => negb (end_live w)) blocks)).

(** An event that lets the callback go on: a log line, or a call the node
    answered with a receipt or with [None]. *)
Definition answered (e : Event) : Prop :=
  match e with
  | Sent tx o => o <> Raised /\ exists w, snd (node tx w) = o
  | Logged _ => True
  end.

(** How a callback ends: it returns after events that all let it go on, or
    it stops at the call that raised. *)
Definition ended {A} (r : Reply A) (evs : list Event) : Prop :=
  match r with
  | Ok _ => Forall answered evs
  | Exc =>
      exists pre tx w,
        evs = pre ++ [Sent tx Raised] /\ snd (node tx w) = Raised /\
        Forall answered pre
  end.

Definition orderly {A} (m : M A) : Prop :=
  forall s, exists evs,
    trace (snd (m s)) = trace s ++ evs /\ ended (fst (m s)) evs.

(** The other way a callback ends in an exception: during the processing
    wait, when the thaw time is no datetime.  The block has then logged its
    two banners and nothing else. *)
Definition raises_in_wait (k : Keeper) (w : World) (evs : list Event) : Prop :=
  end_live w = false /\ confirmations k = 12 /\ cageFacilitated k = true /\
  thaw_due w = false /\ utcfromtimestamp (thawedCage w) = None /\
  evs = [Logged (CheckingCage (blockNumber w)); Logged SystemCaged].

(** The chain once the calls of [plan] have been submitted one after the
    other. *)
Definition chain_after (plan : list Tx) (w : World) : World :=
  fold_left (fun w tx => fst (node tx w)) plan w.

(** The forced settlements of the auctions gathered in a dict: for each key
    in order, one call per bid found under it. *)
Definition settles (call : string -> Z -> Tx) (d : list (string * list Bid))
  : list Tx :=
  flat_map
    (fun key =>
       match dict_get d key with
       | Some bs => map (fun b => call key (id b)) bs
       | None => []
       end)
    (keys d).

(** [End.skim] for each urn. *)
Definition skims (urns : list Urn) : list Tx :=
  map (fun u => EndSkim (name (urn_ilk u)) (address u)) urns.

(** The calls of the facilitation phase that are fixed when it starts. *)
Definition first_calls (k : Keeper) (w : World) : list Tx :=
  let a := all_active_auctions (dss k) w in
  yanks a ++ cages (collaterals_with_debt (dss k) w) ++
  settles EndSnip (clips a) ++ settles EndSkip (flips a).

(** The whole work list: the urns are scanned on the chain the first calls
    leave. *)
Definition facilitation_calls (k : Keeper) (w : World) : list Tx :=
  first_calls k w ++
  skims (underwater_urns k (chain_after (first_calls k w) w)
           (map ilk (collaterals_with_debt (dss k) w))).

(** As [submits_at], and the chain is the one the calls of [plan] leave when
    [m] returns. *)
Definition lands {A} (m : M A) (s : State) (plan : list Tx) : Prop :=
  self (snd (m s)) = self s /\
  exists evs,
    trace (snd (m s)) = trace s ++ evs /\
    match fst (m s) with
    | Ok _ => sent evs = plan /\ world (snd (m s)) = chain_after plan (world s)
    | Exc => prefix (sent evs) plan
    end.

(** What [all_active_auctions] gathers per collateral type: the sales of
    its clipper when it has one, else the bids of its flipper that can be
    skipped. *)
Definition clip_entries (w : World) (cs : list Collateral)
  : list (string * list Bid) :=
  flat_map
    (fun c =>
       match clipper c with
       | Some a => [(name (ilk c), active_auctions w a)]
       | None => []
       end)
    cs.

Definition flip_entries (w : World) (cs : list Collateral)
  : list (string * list Bid) :=
  flat_map
    (fun c =>
       match clipper c, flipper c with
       | None, Some f => [(name (ilk c), filter skippable (bids_upto w f))]
       | _, _ => []
       end)
    cs.

(** The collateral types of a deployment have names of their own. *)
Definition distinct_names (d : Dss) : Prop :=
  NoDup (map (fun c => name (ilk c)) (collaterals d)).

(** The lines the scan of the urns of [i] writes: how many were collected,
    then a progress line at every hundredth urn. *)
Definition progress_lines (i : Ilk) (lo hi : Z) : list Event :=
  map (fun m => Logged (Processed m (name i)))
    (filter (fun m => m mod 100 =? 0) (range lo hi)).

Definition scan_lines (k : Keeper) (w : World) (i : Ilk) : list Event :=
  let n := Z.of_nat (List.length (get_urns k w i)) in
  Logged (Collected n (name i)) :: progress_lines i 1 (n + 1).

(** ** Properties *)

(** *** The monad *)

Lemma frames_ret {A} P (a : A) : frames P (ret a).
Proof.
  intros s; split; [reflexivity|].
  exists []; simpl; rewrite app_nil_r; auto.
Qed.

Lemma frames_raise {A} P : frames P (@raise A).
Proof.
  intros s; split; [reflexivity|].
  exists []; simpl; rewrite app_nil_r; auto.
Qed.

Lemma frames_bind {A B} P (m : M A) (f : A -> M B) :
  frames P m -> (forall a, frames P (f a)) -> frames P (bind m f).
Proof.
  intros Hm Hf s. unfold bind.
  destruct (Hm s) as [Hs [evs [Ht Hp]]].
  destruct (m s) as [[a|] s1]; simpl in *.
  - destruct (Hf a s1) as [Hs' [evs' [Ht' Hp']]].
    split; [congruence|].
    exists (evs ++ evs'). rewrite Ht', Ht, app_assoc.
    split; [reflexivity|]. apply Forall_app; auto.
  - split; [assumption|]. exists evs; auto.
Qed.

Lemma frames_get_self P : frames P get_self.
Proof.
  intros s; split; [reflexivity|].
  exists []; simpl; rewrite app_nil_r; auto.
Qed.

Lemma frames_read {A} P (f : World -> A) : frames P (read f).
Proof.
  intros s; split; [reflexivity|].
  exists []; simpl; rewrite app_nil_r; auto.
Qed.

Lemma frames_info (P : Event -> Prop) m : P (Logged m) -> frames P (info m).
Proof.
  intros H s; split; [reflexivity|].
  exists [Logged m]; simpl; auto.
Qed.

Lemma frames_transact (P : Event -> Prop) tx :
  (forall o, P (Sent tx o)) -> frames P (transact tx).
Proof.
  intros H s. unfold transact.
  destruct (node tx (world s)) as [w' o].
  assert (Hevs : Forall P [Sent tx o]) by auto.
  destruct o; simpl; (split; [reflexivity|]); eauto.
Qed.

Lemma frames_item {V} P (d : list (string * V)) key : frames P (item d key).
Proof.
  unfold item. destruct (dict_get d key).
  - apply frames_ret.
  - apply frames_raise.
Qed.

Lemma frames_when P c m : frames P m -> frames P (when_ c m).
Proof.
  intros H. destruct c; simpl; [assumption | apply frames_ret].
Qed.

Lemma frames_for_each {A} P (xs : list A) body :
  (forall x, frames P (body x)) -> frames P (for_each xs body).
Proof.
  intros H. induction xs as [|x xs IH]; simpl.
  - apply frames_ret.
  - apply frames_bind; auto.
Qed.

Lemma frames_fold_each {A B} P (xs : list A) (b : B) body :
  (forall b x, frames P (body b x)) -> frames P (fold_each xs b body).
Proof.
  intros H. revert b. induction xs as [|x xs IH]; intros b; simpl.
  - apply frames_ret.
  - apply frames_bind; auto.
Qed.

Lemma bind_info {A} m (f : unit -> M A) s :
  bind (info m) f s =
    f tt (mkState (self s) (world s) (trace s ++ [Logged m])).
Proof. reflexivity. Qed.

Lemma bind_read {A B} (f : World -> A) (g : A -> M B) s :
  bind (read f) g s = g (f (world s)) s.
Proof. reflexivity. Qed.

Lemma bind_get_self {B} (g : Keeper -> M B) s :
  bind get_self g s = g (self s) s.
Proof. reflexivity. Qed.

Lemma bind_modify_self {B} f (g : unit -> M B) s :
  bind (modify_self f) g s = g tt (mkState (f (self s)) (world s) (trace s)).
Proof. reflexivity. Qed.

Lemma bind_ret {A B} (a : A) (g : A -> M B) s : bind (ret a) g s = g a s.
Proof. reflexivity. Qed.

(** *** Phases keep to their own calls *)

Ltac frames_step :=
  first
    [ apply frames_ret | apply frames_get_self | apply frames_read
    | apply frames_item | apply frames_raise
    | apply frames_info; try reflexivity
    | apply frames_transact; intros ?; try reflexivity
    | apply frames_when
    | apply frames_for_each; intros ?
    | apply frames_fold_each; intros ? ?
    | apply frames_bind; [| intros ?] ].

Lemma get_collaterals_frames (P : Event -> Prop) :
  (forall names, P (Logged (CollateralsToCheck names))) ->
  frames P get_collaterals.
Proof.
  intros H. unfold get_collaterals.
  repeat frames_step. apply H.
Qed.

Lemma get_underwater_urns_frames (P : Event -> Prop) ilks :
  (forall n i, P (Logged (Collected n i))) ->
  (forall n i, P (Logged (Processed n i))) ->
  frames P (get_underwater_urns ilks).
Proof.
  intros Hc Hp. unfold get_underwater_urns.
  apply frames_bind; [frames_step | intros k].
  apply frames_fold_each; intros acc i. unfold scan_ilk.
  apply frames_bind; [frames_step | intros urns].
  apply frames_bind; [apply frames_info, Hc | intros _].
  apply frames_bind; [| intros r; frames_step].
  apply frames_fold_each; intros [acc' n] urn. unfold scan_urn.
  apply frames_bind; [frames_step | intros fresh].
  apply frames_bind; [frames_step | intros mat].
  apply frames_bind; [| intros _; frames_step].
  apply frames_when, frames_info, Hp.
Qed.

Lemma facilitate_processing_period_log s :
  self (snd (facilitate_processing_period s)) = self s /\
  exists evs,
    trace (snd (facilitate_processing_period s)) =
      trace s ++ Logged FacilitatingCage :: evs /\
    Forall (fun e => thaw_event e = false) evs.
Proof.
  unfold facilitate_processing_period, yank_auctions.
  rewrite !bind_info.
  match goal with
  | |- context [bind get_collaterals ?f] =>
      assert (H : frames (fun e => thaw_event e = false) (bind get_collaterals f))
  end.
  { apply frames_bind; [apply get_collaterals_frames; reflexivity | intros cs].
    apply frames_bind; [frames_step | intros k].
    apply frames_bind; [frames_step | intros auctions].
    apply frames_bind; [repeat frames_step | intros _].
    apply frames_bind; [repeat frames_step | intros _].
    apply frames_bind; [repeat frames_step | intros _].
    apply frames_bind; [repeat frames_step | intros _].
    apply frames_bind;
      [apply get_underwater_urns_frames; reflexivity | intros urns].
    repeat frames_step. }
  destruct (H (mkState (self s) (world s) (trace s ++ [Logged FacilitatingCage])))
    as [Hs [evs [Ht Hp]]].
  simpl in Hs, Ht. split; [exact Hs|].
  exists evs. rewrite Ht, <- app_assoc. auto.
Qed.

Lemma thaw_cage_frames :
  frames (fun e => facilitation_event e = false) thaw_cage.
Proof.
  unfold thaw_cage.
  apply frames_bind; [frames_step | intros _].
  apply frames_bind; [apply get_collaterals_frames; reflexivity | intros cs].
  apply frames_bind; [frames_step | intros k].
  apply frames_bind; [frames_step | intros dai].
  apply frames_bind; [repeat frames_step | intros _].
  apply frames_bind; [repeat frames_step | intros _].
  apply frames_bind; [| intros _; repeat frames_step].
  apply frames_for_each; intros c.
  apply frames_bind; [repeat frames_step | intros _].
  destruct (clipper c), (flipper c); repeat frames_step.
Qed.

(** *** Double precision *)

Lemma round53_exact z : Z.abs z < 2 ^ 53 -> round53 z = z.
Proof.
  intros H. unfold round53.
  destruct (Z.ltb_spec (Z.abs z) (2 ^ 53)); [reflexivity | lia].
Qed.

(** Rounding does not take a number of 54 bits or more below 2^53. *)
Lemma round53_large z : 2 ^ 53 <= Z.abs z -> 2 ^ 53 <= Z.abs (round53 z).
Proof.
  intros H. unfold round53.
  destruct (Z.ltb_spec (Z.abs z) (2 ^ 53)) as [Hlt|_]; [lia|].
  set (a := Z.abs z) in *.
  assert (Ha : 0 < a) by lia.
  assert (Hlog : 53 <= Z.log2 a).
  { apply Z.log2_le_pow2; assumption. }
  destruct (Z.log2_spec a Ha) as [Hlo _].
  set (e := Z.log2 a - 52) in *.
  assert (He : 1 <= e) by (unfold e; lia).
  assert (Hpow : 2 ^ Z.log2 a = 2 ^ 52 * 2 ^ e).
  { rewrite <- Z.pow_add_r by lia. f_equal. unfold e. lia. }
  assert (Hulp : 2 <= 2 ^ e).
  { change 2 with (2 ^ 1) at 1. apply Z.pow_le_mono_r; lia. }
  assert (Hq : 2 ^ 52 <= a / 2 ^ e).
  { apply Z.div_le_lower_bound; [lia|]. rewrite Z.mul_comm. lia. }
  set (q := a / 2 ^ e) in *.
  set (r := a mod 2 ^ e).
  match goal with
  | |- _ <= Z.abs (_ * (?q' * _)) => assert (Hq' : q <= q')
  end.
  { destruct (2 * r <? 2 ^ e); [lia|].
    destruct (2 ^ e <? 2 * r); [lia|].
    destruct (Z.even q); lia. }
  match goal with
  | |- _ <= Z.abs (_ * (?q' * _)) => set (q1 := q') in *
  end.
  assert (Hprod : 2 ^ 53 <= q1 * 2 ^ e).
  { change (2 ^ 53) with (2 ^ 52 * 2). apply Z.mul_le_mono_nonneg; lia. }
  assert (Hz : z <> 0) by (unfold a in Ha; lia).
  clearbody q1 a.
  destruct (Z.sgn_spec z) as [[_ Hs]|[[Hz0 _]|[_ Hs]]];
    [rewrite Hs | congruence | rewrite Hs]; lia.
Qed.

Lemma round53_small z : Z.abs (round53 z) < 2 ^ 53 -> round53 z = z.
Proof.
  intros H. apply round53_exact.
  destruct (Z.lt_ge_cases (Z.abs z) (2 ^ 53)) as [|Hge]; [assumption|].
  apply round53_large in Hge. lia.
Qed.

Lemma datetime_bounds (d : datetime) :
  min_timestamp <= timestamp d <= max_timestamp.
Proof.
  pose proof (timestamp_range d) as H. unfold in_datetime_range in H.
  apply andb_prop in H. destruct H as [H1 H2].
  apply Z.leb_le in H1, H2. lia.
Qed.

(** A thaw time that is a datetime is the exact sum of [when] and [wait]. *)
Lemma thawedCage_exact w :
  in_datetime_range (thawedCage w) = true ->
  thawedCage w = timestamp (end_when w) + uint (end_wait w).
Proof.
  intros H. unfold in_datetime_range in H.
  apply andb_prop in H. destruct H as [H1 H2]. apply Z.leb_le in H1, H2.
  pose proof (datetime_bounds (end_when w)) as Hw.
  unfold thawedCage, float_add, float_of_int, min_timestamp, max_timestamp in *.
  set (t := timestamp (end_when w)) in *.
  set (u := uint (end_wait w)) in *.
  assert (Hsum : round53 (t + round53 u) = t + round53 u).
  { apply round53_small. lia. }
  rewrite Hsum in *.
  assert (Hu : round53 u = u).
  { apply round53_small. lia. }
  rewrite Hu. reflexivity.
Qed.

(** When the exact time test and the test of [check_cage] differ, the thaw
    time is no datetime. *)
Lemma thaw_due_differs w :
  thaw_due w <> thaw_time_reached w -> utcfromtimestamp (thawedCage w) = None.
Proof.
  intros H. unfold utcfromtimestamp.
  destruct (in_datetime_range (thawedCage w)) eqn:Hr; [|reflexivity].
  exfalso. apply H. unfold thaw_due, thaw_time_reached.
  rewrite (thawedCage_exact w Hr). reflexivity.
Qed.


(** *** One invocation of [check_cage] *)

Lemma check_cage_spec s :
  let k := self s in
  let w := world s in
  let out := check_cage s in
  exists evs,
    trace (snd out) = trace s ++ Logged (CheckingCage (blockNumber w)) :: evs /\
    if negb (end_live w) && (confirmations k =? 12) then
      if negb (cageFacilitated k) then
        self (snd out) = set_cageFacilitated true k /\
        exists evs',
          evs = Logged SystemCaged :: Logged FacilitatingCage :: evs' /\
          Forall (fun e => thaw_event e = false) evs'
      else if thaw_due w then
        self (snd out) = k /\
        exists evs',
          evs = Logged SystemCaged :: evs' /\
          Forall (fun e => facilitation_event e = false) evs'
      else
        self (snd out) = k /\
        match utcfromtimestamp (thawedCage w) with
        | Some t =>
            fst out = Ok tt /\
            evs = [Logged SystemCaged; Logged (WillBeThawed t)]
        | None => fst out = Exc /\ evs = [Logged SystemCaged]
        end
    else if negb (end_live w) && (confirmations k <? 13) then
      self (snd out) = set_confirmations (confirmations k + 1) k /\
      fst out = Ok tt /\
      evs = [Logged (Confirmations (confirmations k + 1))]
    else
      self (snd out) = k /\ fst out = Ok tt /\ evs = [].
Proof.
  intros k w out.
  assert (Hout : out = check_cage s) by reflexivity. clearbody out.
  unfold check_cage in Hout.
  unfold bind at 1, read at 1 in Hout. unfold bind at 1, info at 1 in Hout.
  unfold bind at 1, read at 1 in Hout. unfold bind at 1, get_self at 1 in Hout.
  cbn [self world trace] in Hout.
  fold k w in Hout.
  destruct (negb (end_live w) && (confirmations k =? 12)) eqn:Hfinal.
  - unfold bind at 1, info at 1 in Hout. unfold bind at 1, read at 1 in Hout.
    unfold bind at 1, read at 1 in Hout. unfold bind at 1, read at 1 in Hout.
    cbn [self world trace] in Hout. fold w in Hout.
    destruct (negb (cageFacilitated k)) eqn:Hfac.
    + unfold bind at 1, modify_self at 1 in Hout.
      cbn [self world trace] in Hout.
      match type of Hout with
      | _ = facilitate_processing_period ?s0 =>
          destruct (facilitate_processing_period_log s0) as [Hs [evs [Ht Hp]]]
      end.
      rewrite <- Hout in Hs, Ht. cbn [self world trace] in Hs, Ht.
      exists (Logged SystemCaged :: Logged FacilitatingCage :: evs).
      split.
      * rewrite Ht, <- !app_assoc. reflexivity.
      * split; [exact Hs | eauto].
    + change (float_add (timestamp (end_when w))
                (float_of_int (uint (end_wait w)))) with (thawedCage w) in Hout.
      change (block_timestamp w (blockNumber w) >=? thawedCage w)
        with (thaw_due w) in Hout.
      destruct (thaw_due w).
      * match type of Hout with
        | _ = bind thaw_cage ?f ?s0 =>
            assert (H : frames (fun e => facilitation_event e = false)
                          (bind thaw_cage f));
            [| destruct (H s0) as [Hs [evs [Ht Hp]]]]
        end.
        { apply frames_bind; [apply thaw_cage_frames | intros _].
          repeat frames_step. }
        rewrite <- Hout in Hs, Ht. cbn [self world trace] in Hs, Ht.
        exists (Logged SystemCaged :: evs). split.
        -- rewrite Ht, <- !app_assoc. reflexivity.
        -- split; [exact Hs | eauto].
      * unfold bind at 1, attempt in Hout.
        destruct (utcfromtimestamp (thawedCage w)); subst out; cbn.
        -- eexists. split; [rewrite <- !app_assoc; reflexivity|]. auto.
        -- eexists. split; [rewrite <- !app_assoc; reflexivity|]. auto.
  - destruct (negb (end_live w) && (confirmations k <? 13)).
    + subst out. cbn.
      eexists. split; [rewrite <- !app_assoc; reflexivity|]. auto.
    + subst out. cbn. eexists. split; [reflexivity|]. auto.
Qed.

(** *** One block *)

Ltac zbool :=
  repeat match goal with
    | H : (_ >=? _) = true |- _ => rewrite Z.geb_leb in H; apply Z.leb_le in H
    | H : (_ >=? _) = false |- _ => rewrite Z.geb_leb in H; apply Z.leb_gt in H
    | H : (_ <? _) = true |- _ => apply Z.ltb_lt in H
    | H : (_ <? _) = false |- _ => apply Z.ltb_ge in H
    | H : (_ =? _) = true |- _ => apply Z.eqb_eq in H
    | H : (_ =? _) = false |- _ => apply Z.eqb_neq in H
    end.

Lemma block_step_eq k w :
  block_step k w =
    if errors k >=? max_errors k
    then mkStep k w (Ok tt) [] (set_terminated true k)
    else let out := check_cage (mkState k w []) in
         mkStep k w (fst out) (trace (snd out)) (self (snd out)).
Proof.
  unfold block_step, process_block.
  unfold bind at 1, get_self at 1. cbn [self world trace].
  destruct (errors k >=? max_errors k); [reflexivity|].
  destruct (check_cage (mkState k w [])); reflexivity.
Qed.

Lemma block_step_before k w : before (block_step k w) = k.
Proof. rewrite block_step_eq. destruct (errors k >=? max_errors k); reflexivity. Qed.

Lemma block_step_at_block k w : at_block (block_step k w) = w.
Proof. rewrite block_step_eq. destruct (errors k >=? max_errors k); reflexivity. Qed.

(** Breaks [block_step k w] into the cases of [process_block] and
    [check_cage]. *)
Ltac step_cases k w :=
  rewrite block_step_eq;
  let E := fresh "Herr" in
  destruct (errors k >=? max_errors k) eqn:E;
  [ cbn
  | let evs := fresh "evs" in
    let Ht := fresh "Ht" in
    let Hc := fresh "Hc" in
    destruct (check_cage_spec (mkState k w [])) as [evs [Ht Hc]];
    cbn [self world trace app] in Ht, Hc;
    cbn [before at_block reply events after];
    let El := fresh "Hlive" in
    let E12 := fresh "H12" in
    let E13 := fresh "H13" in
    let Ef := fresh "Hfac" in
    let Et := fresh "Htime" in
    destruct (end_live w) eqn:El;
    destruct (confirmations k =? 12) eqn:E12;
    destruct (confirmations k <? 13) eqn:E13;
    destruct (cageFacilitated k) eqn:Ef;
    destruct (thaw_due w) eqn:Et;
    destruct (utcfromtimestamp (thawedCage w)) eqn:?;
    cbn [negb andb] in Hc;
    repeat match goal with
      | H : _ /\ _ |- _ => destruct H
      | H : exists _, _ |- _ => destruct H
      end;
    subst; zbool; try lia ].

Lemma step_constants k w :
  let k' := after (block_step k w) in
  arguments k' = arguments k /\ dss k' = dss k /\
  deployment_block k' = deployment_block k /\
  max_errors k' = max_errors k /\ errors k' = errors k.
Proof.
  cbv zeta. step_cases k w; auto;
    match goal with H : self _ = _ |- _ => rewrite H end; auto.
Qed.

Lemma step_confirmations k w :
  confirmations (after (block_step k w)) =
    if (errors k <? max_errors k) && negb (end_live w) && (confirmations k <? 12)
    then confirmations k + 1
    else confirmations k.
Proof.
  destruct (errors k <? max_errors k) eqn:Hlt;
    destruct (confirmations k <? 12) eqn:Hc12;
    step_cases k w; cbn [negb andb];
    try match goal with H : self _ = _ |- _ => rewrite H end;
    try reflexivity; try lia.
Qed.

Lemma step_cageFacilitated k w :
  cageFacilitated (after (block_step k w)) =
    cageFacilitated k ||
    ((errors k <? max_errors k) && negb (end_live w) && (confirmations k =? 12)).
Proof.
  destruct (errors k <? max_errors k) eqn:Hlt;
    step_cases k w; cbn [negb andb orb];
    try match goal with H : self _ = _ |- _ => rewrite H end;
    try match goal with H : cageFacilitated _ = _ |- _ => rewrite H end;
    cbn; rewrite ?orb_false_r; try reflexivity; try assumption; try lia.
Qed.

Lemma step_terminated k w :
  terminated (after (block_step k w)) =
    terminated k || (errors k >=? max_errors k).
Proof.
  step_cases k w;
    try match goal with H : self _ = _ |- _ => rewrite H end;
    cbn; rewrite ?orb_true_r, ?orb_false_r; reflexivity.
Qed.

Lemma existsb_Forall_false {A} (p : A -> bool) l :
  Forall (fun x => p x = false) l -> existsb p l = false.
Proof.
  induction 1 as [|x l Hx _ IH]; simpl; [reflexivity|].
  rewrite Hx, IH. reflexivity.
Qed.

Lemma step_facilitates k w :
  facilitates (block_step k w) =
    (errors k <? max_errors k) && negb (end_live w) &&
    (confirmations k =? 12) && negb (cageFacilitated k).
Proof.
  unfold facilitates.
  destruct (errors k <? max_errors k) eqn:Hlt;
    step_cases k w; cbn [negb andb];
    try reflexivity; try lia;
    rewrite Ht; cbn [existsb facilitation_event orb];
    try reflexivity.
  all: apply existsb_Forall_false; assumption.
Qed.

Lemma step_thaws k w :
  thaws (block_step k w) = true ->
  errors k < max_errors k /\ end_live w = false /\ confirmations k = 12 /\
  cageFacilitated k = true /\ thaw_due w = true.
Proof.
  unfold thaws.
  step_cases k w; try discriminate;
    try (rewrite Ht; cbn [existsb thaw_event orb]);
    try discriminate; try (intros _; auto; fail).
  all: rewrite existsb_Forall_false by assumption; discriminate.
Qed.

(** *** Runs *)

Lemma counting_init args d : counting (init args d).
Proof. right. reflexivity. Qed.

Lemma counting_step k w : counting k -> counting (after (block_step k w)).
Proof.
  intros H. unfold counting.
  destruct (step_constants k w) as (_ & _ & _ & Hm & He).
  rewrite Hm, He, step_confirmations.
  destruct H as [H|H]; [left; assumption|].
  destruct (Z.ltb_spec (errors k) (max_errors k)); [left; assumption|].
  right. cbn [andb]. assumption.
Qed.

Lemma history_cons k w blocks :
  terminated k = false ->
  history k (w :: blocks) =
    block_step k w :: history (after (block_step k w)) blocks.
Proof. intros H. simpl. rewrite H. reflexivity. Qed.

Lemma history_terminated k blocks : terminated k = true -> history k blocks = [].
Proof. intros H. destruct blocks; simpl; [|rewrite H]; reflexivity. Qed.

(** A property of keepers that every block keeps holds before and after
    every step of a run. *)
Lemma history_invariant (I : Keeper -> Prop) :
  (forall k w, I k -> I (after (block_step k w))) ->
  forall blocks k, I k ->
    Forall (fun st => I (before st) /\ I (after st)) (history k blocks).
Proof.
  intros Hstep. induction blocks as [|w blocks IH]; intros k Hk; simpl.
  - constructor.
  - destruct (terminated k); constructor.
    + rewrite block_step_before. auto.
    + apply IH. auto.
Qed.

(** Every step of a run is a [block_step] of the keeper it starts from. *)
Lemma history_steps blocks : forall k,
  Forall (fun st => st = block_step (before st) (at_block st)) (history k blocks).
Proof.
  induction blocks as [|w blocks IH]; intros k; simpl.
  - constructor.
  - destruct (terminated k); constructor.
    + rewrite block_step_before, block_step_at_block. reflexivity.
    + apply IH.
Qed.

(** The steps after step [i] are a run from the keeper step [i] leaves. *)
Lemma history_later blocks : forall k i j st_i st_j,
  nth_error (history k blocks) i = Some st_i ->
  nth_error (history k blocks) j = Some st_j ->
  (i < j)%nat ->
  exists blocks', In st_j (history (after st_i) blocks').
Proof.
  induction blocks as [|w blocks IH]; intros k i j st_i st_j Hi Hj Hlt.
  - destruct i; discriminate.
  - simpl in Hi, Hj. destruct (terminated k).
    + destruct i; discriminate.
    + destruct j as [|j]; [lia|]. simpl in Hj.
      destruct i as [|i]; simpl in Hi.
      * injection Hi as <-. exists blocks. eapply nth_error_In; eauto.
      * eapply IH; eauto. lia.
Qed.

Lemma check_cage_confirmations s :
  confirmations (self (snd (check_cage s))) =
    if negb (end_live (world s)) && (confirmations (self s) <? 12)
    then confirmations (self s) + 1
    else confirmations (self s).
Proof.
  destruct (check_cage_spec s) as [evs [_ Hc]]. cbv zeta in Hc.
  destruct (end_live (world s));
    destruct (confirmations (self s) =? 12) eqn:H12;
    destruct (confirmations (self s) <? 13) eqn:H13;
    destruct (confirmations (self s) <? 12) eqn:H11;
    destruct (cageFacilitated (self s));
    destruct (thaw_due (world s));
    destruct (utcfromtimestamp (thawedCage (world s)));
    cbn [negb andb] in Hc |- *;
    repeat match goal with
      | H : _ /\ _ |- _ => destruct H
      | H : exists _, _ |- _ => destruct H
      end;
    zbool; try lia;
    match goal with H : self _ = _ |- _ => rewrite H end; reflexivity.
Qed.

Lemma confirmations_range_step k w :
  0 <= confirmations k <= 12 ->
  0 <= confirmations (after (block_step k w)) <= 12.
Proof.
  intros H. rewrite step_confirmations.
  destruct (errors k <? max_errors k), (end_live w);
    destruct (Z.ltb_spec (confirmations k) 12); cbn [negb andb]; lia.
Qed.

(** C2. The confirmation counter starts at 0; an invocation of [check_cage]
    adds exactly 1 to it when [live] reads false and the counter is below 12,
    and leaves it alone otherwise, so never once it is 12; on every state a
    run reaches the counter lies between 0 and 12, and a block that
    changes it read [live] false. *)
Theorem confirmations_counter :
  (forall args d, confirmations (init args d) = 0) /\
  (forall s,
     confirmations (self (snd (check_cage s))) =
       if negb (end_live (world s)) && (confirmations (self s) <? 12)
       then confirmations (self s) + 1
       else confirmations (self s)) /\
  (forall args d blocks,
     Forall
       (fun st =>
          0 <= confirmations (before st) <= 12 /\
          0 <= confirmations (after st) <= 12 /\
          (confirmations (after st) = confirmations (before st) \/
           confirmations (after st) = confirmations (before st) + 1 /\
           end_live (at_block st) = false /\
           confirmations (before st) < 12))
       (history (init args d) blocks)).
Proof.
  split; [reflexivity|]. split; [exact check_cage_confirmations|].
  intros args d blocks.
  pose proof (history_invariant (fun k => 0 <= confirmations k <= 12)
                confirmations_range_step blocks (init args d)) as Hrange.
  pose proof (history_steps blocks (init args d)) as Hsteps.
  rewrite Forall_forall in *. intros st Hin.
  destruct (Hrange ltac:(simpl; lia) st Hin) as [Hb Ha].
  split; [assumption|]. split; [assumption|].
  rewrite (Hsteps st Hin) at 1 3. rewrite step_confirmations.
  destruct (errors (before st) <? max_errors (before st));
    destruct (end_live (at_block st));
    destruct (Z.ltb_spec (confirmations (before st)) 12);
    cbn [negb andb]; auto.
Qed.

(** Facilitation happens at the first block that finds the shutdown final,
    unless the latch is already set. *)
Lemma facilitation_indices blocks : forall k n,
  counting k ->
  indices_from facilitates n (history k blocks) =
    if cageFacilitated k then []
    else firstn 1 (indices_from final_block n (history k blocks)).
Proof.
  induction blocks as [|w blocks IH]; intros k n Hk.
  - simpl. destruct (cageFacilitated k); reflexivity.
  - destruct (terminated k) eqn:Hterm.
    + rewrite history_terminated by assumption.
      simpl. destruct (cageFacilitated k); reflexivity.
    + rewrite history_cons by assumption.
      cbn [indices_from]. unfold final_block at 1.
      rewrite block_step_before, block_step_at_block.
      rewrite (IH _ (S n) (counting_step k w Hk)).
      rewrite step_facilitates, step_cageFacilitated.
      destruct (cageFacilitated k); cbn [orb negb andb].
      * rewrite andb_false_r. reflexivity.
      * rewrite andb_true_r.
        destruct (end_live w); cbn [negb andb];
          [rewrite andb_false_r; reflexivity|].
        destruct (confirmations k =? 12) eqn:H12;
          [|rewrite !andb_false_r; reflexivity].
        assert (Hlt : (errors k <? max_errors k) = true).
        { apply Z.ltb_lt. zbool. destruct Hk; lia. }
        rewrite Hlt. reflexivity.
Qed.

Lemma latches_once blocks : forall k,
  (List.length (filter latches (history k blocks))
   <= if cageFacilitated k then 0 else 1)%nat.
Proof.
  induction blocks as [|w blocks IH]; intros k.
  - simpl. destruct (cageFacilitated k); lia.
  - destruct (terminated k) eqn:Hterm.
    + rewrite history_terminated by assumption.
      simpl. destruct (cageFacilitated k); lia.
    + rewrite history_cons by assumption.
      cbn [filter]. unfold latches at 1. rewrite block_step_before.
      specialize (IH (after (block_step k w))).
      destruct (cageFacilitated k) eqn:Hf; cbn [negb andb].
      * rewrite step_cageFacilitated, Hf in IH. exact IH.
      * destruct (cageFacilitated (after (block_step k w)));
          cbn [List.length]; lia.
Qed.

(** C1 (amended). In a run not started with [--previous-cage], facilitation
    work is computed and submitted on exactly the first invocation that reads
    [live] false with the counter at 12; in a run started with
    [--previous-cage] on none.  Either way the latch goes from false to true
    at most once. *)
Theorem facilitation_once args d blocks :
  let h := history (init args d) blocks in
  (if previous_cage args
   then indices facilitates h = []
   else facilitates_at_first_final h) /\
  (List.length (filter latches h) <= 1)%nat.
Proof.
  cbv zeta. split.
  - unfold facilitates_at_first_final, indices.
    rewrite (facilitation_indices blocks (init args d) 0 (counting_init args d)).
    cbn [cageFacilitated init].
    destruct (previous_cage args); reflexivity.
  - pose proof (latches_once blocks (init args d)) as H.
    destruct (cageFacilitated (init args d)); lia.
Qed.

Lemma latched_stays k w :
  cageFacilitated k = true ->
  cageFacilitated (after (block_step k w)) = true.
Proof. intros H. rewrite step_cageFacilitated, H. reflexivity. Qed.

Lemma latched_no_facilitation blocks k :
  cageFacilitated k = true ->
  Forall (fun st => facilitates st = false) (history k blocks).
Proof.
  intros Hk.
  pose proof (history_invariant (fun k => cageFacilitated k = true)
                latched_stays blocks k Hk) as Hinv.
  pose proof (history_steps blocks k) as Hsteps.
  rewrite Forall_forall in *. intros st Hin.
  rewrite (Hsteps st Hin), step_facilitates.
  destruct (Hinv st Hin) as [-> _]. cbn [negb]. apply andb_false_r.
Qed.

(** When the shutdown is final and the latch is off, the invocation is the
    facilitation phase run with the latch already on and nothing submitted. *)
Lemma process_block_facilitation k w :
  errors k < max_errors k -> end_live w = false -> confirmations k = 12 ->
  cageFacilitated k = false ->
  process_block (mkState k w []) =
    facilitate_processing_period
      (mkState (set_cageFacilitated true k) w
         [Logged (CheckingCage (blockNumber w)); Logged SystemCaged]).
Proof.
  intros He Hl Hc Hf.
  assert (Hge : (errors k >=? max_errors k) = false).
  { rewrite Z.geb_leb. apply Z.leb_gt. assumption. }
  unfold process_block. rewrite bind_get_self. cbn [self]. rewrite Hge.
  unfold check_cage.
  rewrite bind_read, bind_info, bind_read, bind_get_self.
  cbn [self world trace]. rewrite Hl, Hc. cbn [negb andb Z.eqb Pos.eqb].
  rewrite bind_info, !bind_read. rewrite Hf. cbn [negb].
  rewrite bind_modify_self. reflexivity.
Qed.

(** C10. An invocation that computes or submits facilitation work is the
    facilitation phase run from a state whose latch is already true and in
    which no call has been submitted; it leaves the latch true even when it
    ends in an exception, and no later invocation of the run computes or
    submits facilitation work. *)
Theorem no_facilitation_retry k blocks i j st_i st_j :
  nth_error (history k blocks) i = Some st_i ->
  nth_error (history k blocks) j = Some st_j ->
  (i < j)%nat ->
  facilitates st_i = true ->
  (exists s1,
     cageFacilitated (self s1) = true /\ sent (trace s1) = [] /\
     process_block (mkState (before st_i) (at_block st_i) []) =
       facilitate_processing_period s1) /\
  cageFacilitated (after st_i) = true /\
  facilitates st_j = false.
Proof.
  intros Hi Hj Hlt Hfac.
  pose proof (history_steps blocks k) as Hsteps.
  rewrite Forall_forall in Hsteps.
  pose proof (Hsteps st_i (nth_error_In _ _ Hi)) as Ei.
  assert (Hcond : (errors (before st_i) <? max_errors (before st_i)) = true /\
                  end_live (at_block st_i) = false /\
                  (confirmations (before st_i) =? 12) = true /\
                  cageFacilitated (before st_i) = false).
  { rewrite Ei, step_facilitates in Hfac.
    repeat (apply andb_prop in Hfac; destruct Hfac as [Hfac ?]).
    repeat split; try assumption.
    - destruct (end_live (at_block st_i)); [discriminate | reflexivity].
    - destruct (cageFacilitated (before st_i)); [discriminate | reflexivity]. }
  destruct Hcond as (He & Hl & Hc & Hf).
  assert (Hafter : cageFacilitated (after st_i) = true).
  { rewrite Ei, step_cageFacilitated, He, Hl, Hc. apply orb_true_r. }
  split; [|split; [assumption|]].
  - eexists. split; [|split; [|apply process_block_facilitation]].
    + reflexivity.
    + reflexivity.
    + apply Z.ltb_lt; assumption.
    + assumption.
    + apply Z.eqb_eq; assumption.
    + assumption.
  - destruct (history_later blocks k i j st_i st_j Hi Hj Hlt) as [blocks' Hin].
    pose proof (latched_no_facilitation blocks' (after st_i) Hafter) as Hno.
    rewrite Forall_forall in Hno. auto.
Qed.

(** *** Sequences of calls *)

Lemma sent_app evs1 evs2 : sent (evs1 ++ evs2) = sent evs1 ++ sent evs2.
Proof. unfold sent. apply flat_map_app. Qed.

Lemma prefix_refl {A} (l : list A) : prefix l l.
Proof. exists []. rewrite app_nil_r. reflexivity. Qed.

Lemma prefix_app_r {A} (l1 l2 l3 : list A) : prefix l1 l2 -> prefix l1 (l2 ++ l3).
Proof. intros [r ->]. exists (r ++ l3). rewrite app_assoc. reflexivity. Qed.

Lemma prefix_app {A} (l l1 l2 : list A) : prefix l1 l2 -> prefix (l ++ l1) (l ++ l2).
Proof. intros [r ->]. exists r. rewrite app_assoc. reflexivity. Qed.

Lemma submits_at_bind {A B} (m : M A) (f : A -> M B) s p1 p2 :
  submits_at m s p1 -> (forall a, submits (f a) p2) ->
  submits_at (bind m f) s (p1 ++ p2).
Proof.
  intros [Hs [evs [Ht Hr]]] Hf. unfold submits_at, bind.
  destruct (m s) as [[a|] s1]; cbn [fst snd] in *.
  - destruct (Hf a s1) as [Hs' [evs' [Ht' Hr']]].
    split; [congruence|].
    exists (evs ++ evs'). split; [rewrite Ht', Ht, app_assoc; reflexivity|].
    rewrite sent_app, Hr.
    destruct (fst (f a s1)); [rewrite Hr'; reflexivity | apply prefix_app, Hr'].
  - split; [assumption|]. exists evs. split; [assumption|].
    apply prefix_app_r, Hr.
Qed.

Lemma submits_bind {A B} (m : M A) (f : A -> M B) p1 p2 :
  submits m p1 -> (forall a, submits (f a) p2) -> submits (bind m f) (p1 ++ p2).
Proof. intros Hm Hf s. apply submits_at_bind; auto. Qed.

Lemma submits_ret {A} (a : A) : submits (ret a) [].
Proof.
  intros s. split; [reflexivity|]. exists []. cbn. rewrite app_nil_r. auto.
Qed.

Lemma submits_info m : submits (info m) [].
Proof. intros s. split; [reflexivity|]. exists [Logged m]. cbn. auto. Qed.

Lemma submits_transact tx : submits (transact tx) [tx].
Proof.
  intros s. unfold submits_at, transact.
  destruct (node tx (world s)) as [w' o].
  destruct o; cbn; (split; [reflexivity|]); eexists;
    (split; [reflexivity|]); cbn; auto using prefix_refl.
Qed.

Lemma submits_when c m plan :
  submits m plan -> submits (when_ c m) (if c then plan else []).
Proof. intros H. destruct c; [exact H | apply submits_ret]. Qed.

Lemma submits_for_each {A} (xs : list A) body (plan : A -> list Tx) :
  (forall x, submits (body x) (plan x)) ->
  submits (for_each xs body) (flat_map plan xs).
Proof.
  intros H. induction xs as [|x xs IH]; cbn [for_each flat_map].
  - apply submits_ret.
  - apply submits_bind; auto.
Qed.

Lemma submits_for_each_transact {A} (xs : list A) (call : A -> Tx) :
  submits (for_each xs (fun x => transact (call x))) (map call xs).
Proof.
  induction xs as [|x xs IH]; cbn [for_each map].
  - apply submits_ret.
  - apply (submits_bind _ _ [call x]); [apply submits_transact | auto].
Qed.

Lemma submits_then_bind {A B} P (m : M A) (f : A -> M B) s p1 p2 :
  submits_at m s p1 -> (forall a s', submits_then P (f a) s' p2) ->
  submits_then P (bind m f) s (p1 ++ p2).
Proof.
  intros [Hs [evs [Ht Hr]]] Hf. unfold submits_then, bind.
  destruct (m s) as [[a|] s1]; cbn [fst snd] in *.
  - destruct (Hf a s1) as [Hs' [evs' [rest [Ht' [Hp Hr']]]]].
    split; [congruence|].
    exists (evs ++ evs'), rest.
    split; [rewrite Ht', Ht, app_assoc; reflexivity|]. split; [assumption|].
    rewrite sent_app, Hr, <- app_assoc.
    destruct (fst (f a s1)); [rewrite Hr'; reflexivity | apply prefix_app, Hr'].
  - split; [assumption|]. exists evs, []. split; [assumption|].
    split; [constructor|]. rewrite app_nil_r. apply prefix_app_r, Hr.
Qed.

Lemma frames_submits_then {A} (P : Tx -> Prop) (m : M A) s :
  frames (fun e => match e with Sent tx _ => P tx | Logged _ => True end) m ->
  submits_then P m s [].
Proof.
  intros H. destruct (H s) as [Hs [evs [Ht Hp]]].
  split; [assumption|]. exists evs, (sent evs). split; [assumption|].
  split.
  - clear Ht. induction Hp as [|e evs He _ IH]; cbn; [constructor|].
    destruct e; cbn; auto.
  - destruct (fst (m s)); cbn; auto using prefix_refl.
Qed.

Lemma submits_at_from {A} (m m' : M A) s s' pre plan :
  m s = m' s' -> self s' = self s -> trace s' = trace s ++ pre ->
  sent pre = [] ->
  submits_at m' s' plan -> submits_at m s plan.
Proof.
  intros E Hs Ht Hpre [Hs' [evs [Ht' Hr]]]. unfold submits_at. rewrite E.
  split; [congruence|].
  exists (pre ++ evs). split; [rewrite Ht', Ht, app_assoc; reflexivity|].
  rewrite sent_app, Hpre. exact Hr.
Qed.

Lemma submits_then_from {A} P (m m' : M A) s s' pre plan :
  m s = m' s' -> self s' = self s -> trace s' = trace s ++ pre ->
  sent pre = [] ->
  submits_then P m' s' plan -> submits_then P m s plan.
Proof.
  intros E Hs Ht Hpre [Hs' [evs [rest [Ht' [Hp Hr]]]]].
  unfold submits_then. rewrite E.
  split; [congruence|].
  exists (pre ++ evs), rest.
  split; [rewrite Ht', Ht, app_assoc; reflexivity|]. split; [assumption|].
  rewrite sent_app, Hpre. exact Hr.
Qed.

Lemma submits_at_info {A} m (f : unit -> M A) s plan :
  submits_at (f tt) (log s m) plan -> submits_at (bind (info m) f) s plan.
Proof. apply (submits_at_from _ _ s (log s m) [Logged m]); reflexivity. Qed.

Lemma submits_at_get_self {A} (f : Keeper -> M A) s plan :
  submits_at (f (self s)) s plan -> submits_at (bind get_self f) s plan.
Proof.
  apply (submits_at_from _ _ s s []); try reflexivity.
  symmetry; apply app_nil_r.
Qed.

Lemma submits_at_read {A B} (g : World -> B) (f : B -> M A) s plan :
  submits_at (f (g (world s))) s plan -> submits_at (bind (read g) f) s plan.
Proof.
  apply (submits_at_from _ _ s s []); try reflexivity.
  symmetry; apply app_nil_r.
Qed.

Lemma submits_at_get_collaterals {A} (f : list Collateral -> M A) s plan :
  let cs := collaterals_with_debt (dss (self s)) (world s) in
  submits_at (f cs)
    (log s (CollateralsToCheck (map (fun c => name (ilk c)) cs))) plan ->
  submits_at (bind get_collaterals f) s plan.
Proof.
  intros cs.
  apply (submits_at_from _ _ s
           (log s (CollateralsToCheck (map (fun c => name (ilk c)) cs)))
           [Logged (CollateralsToCheck (map (fun c => name (ilk c)) cs))]);
    reflexivity.
Qed.

Lemma submits_then_info {A} P m (f : unit -> M A) s plan :
  submits_then P (f tt) (log s m) plan ->
  submits_then P (bind (info m) f) s plan.
Proof. apply (submits_then_from P _ _ s (log s m) [Logged m]); reflexivity. Qed.

Lemma submits_then_get_self {A} P (f : Keeper -> M A) s plan :
  submits_then P (f (self s)) s plan ->
  submits_then P (bind get_self f) s plan.
Proof.
  apply (submits_then_from P _ _ s s []); try reflexivity.
  symmetry; apply app_nil_r.
Qed.

Lemma submits_then_read {A B} P (g : World -> B) (f : B -> M A) s plan :
  submits_then P (f (g (world s))) s plan ->
  submits_then P (bind (read g) f) s plan.
Proof.
  apply (submits_then_from P _ _ s s []); try reflexivity.
  symmetry; apply app_nil_r.
Qed.

Lemma submits_then_get_collaterals {A} P (f : list Collateral -> M A) s plan :
  let cs := collaterals_with_debt (dss (self s)) (world s) in
  submits_then P (f cs)
    (log s (CollateralsToCheck (map (fun c => name (ilk c)) cs))) plan ->
  submits_then P (bind get_collaterals f) s plan.
Proof.
  intros cs.
  apply (submits_then_from P _ _ s
           (log s (CollateralsToCheck (map (fun c => name (ilk c)) cs)))
           [Logged (CollateralsToCheck (map (fun c => name (ilk c)) cs))]);
    reflexivity.
Qed.

(** *** The thaw phase *)

Lemma thaw_cage_submits s :
  submits_at thaw_cage s (thaw_calls (self s) (world s)).
Proof.
  unfold thaw_cage.
  apply submits_at_info, submits_at_get_collaterals. cbv zeta.
  apply submits_at_get_self, submits_at_read.
  cbn [log self world trace].
  unfold thaw_calls. cbv zeta.
  apply submits_at_bind.
  - apply submits_when, submits_transact.
  - intros _. apply submits_bind; [apply submits_transact | intros _].
    apply submits_bind.
    + apply submits_for_each. intros c.
      change (EndFlow (name (ilk c)) :: denies c)
        with ([EndFlow (name (ilk c))] ++ denies c).
      apply submits_bind; [apply submits_transact | intros _].
      unfold denies.
      apply submits_bind; [| intros _].
      * destruct (clipper c); [apply submits_transact | apply submits_ret].
      * destruct (flipper c); [apply submits_transact | apply submits_ret].
    + intros _.
      apply (submits_when _ _ [_; _]).
      apply (submits_bind _ _ [_] [_]); [| intros _]; apply submits_transact.
Qed.

Lemma process_block_thaw k w :
  errors k < max_errors k -> end_live w = false -> confirmations k = 12 ->
  cageFacilitated k = true -> thaw_due w = true ->
  process_block (mkState k w []) =
    (thaw_cage ;; info BurningMKR ;; transact EsmBurn)
      (mkState k w [Logged (CheckingCage (blockNumber w)); Logged SystemCaged]).
Proof.
  intros He Hl Hc Hf Ht.
  assert (Hge : (errors k >=? max_errors k) = false).
  { rewrite Z.geb_leb. apply Z.leb_gt. assumption. }
  unfold process_block. rewrite bind_get_self. cbn [self]. rewrite Hge.
  unfold check_cage.
  rewrite bind_read, bind_info, bind_read, bind_get_self.
  cbn [self world trace]. rewrite Hl, Hc. cbn [negb andb Z.eqb Pos.eqb].
  rewrite bind_info, !bind_read. rewrite Hf. cbn [negb].
  cbn [self world trace]. unfold thaw_due, thawedCage in Ht. rewrite Ht.
  reflexivity.
Qed.

(** A block of the processing wait: nothing is submitted, and the block
    raises when the thaw time is no datetime. *)
Lemma waiting_block k w :
  errors k < max_errors k -> end_live w = false -> confirmations k = 12 ->
  cageFacilitated k = true -> thaw_due w = false ->
  block_step k w =
    match utcfromtimestamp (thawedCage w) with
    | Some t =>
        mkStep k w (Ok tt)
          [Logged (CheckingCage (blockNumber w)); Logged SystemCaged;
           Logged (WillBeThawed t)] k
    | None =>
        mkStep k w Exc
          [Logged (CheckingCage (blockNumber w)); Logged SystemCaged] k
    end.
Proof.
  intros He Hl Hc Hf Ht.
  assert (Hge : (errors k >=? max_errors k) = false).
  { rewrite Z.geb_leb. apply Z.leb_gt. assumption. }
  unfold block_step, process_block. rewrite bind_get_self. cbn [self].
  rewrite Hge. unfold check_cage.
  rewrite bind_read, bind_info, bind_read, bind_get_self.
  cbn [self world trace]. rewrite Hl, Hc. cbn [negb andb Z.eqb Pos.eqb].
  rewrite bind_info, !bind_read. rewrite Hf. cbn [negb].
  cbn [self world trace].
  change (float_add (timestamp (end_when w))
            (float_of_int (uint (end_wait w)))) with (thawedCage w).
  change (block_timestamp w (blockNumber w) >=? thawedCage w)
    with (thaw_due w).
  rewrite Ht. unfold bind, attempt.
  destruct (utcfromtimestamp (thawedCage w)); reflexivity.
Qed.

(** A block's step read off [process_block]. *)
Lemma block_step_submits k w plan :
  submits_at process_block (mkState k w []) plan ->
  after (block_step k w) = k /\
  match reply (block_step k w) with
  | Ok _ => sent (events (block_step k w)) = plan
  | Exc => prefix (sent (events (block_step k w))) plan
  end.
Proof.
  intros [Hs [evs [Ht Hr]]]. unfold block_step.
  destruct (process_block (mkState k w [])) as [r s'].
  cbn [fst snd self trace after reply events app] in *.
  rewrite Ht. auto.
Qed.

(** Once facilitation is done and the time test passes, a block submits the thaw
    phase and the burn, and changes nothing in the keeper. *)
Lemma thaw_block k w :
  errors k < max_errors k -> end_live w = false -> confirmations k = 12 ->
  cageFacilitated k = true -> thaw_due w = true ->
  after (block_step k w) = k /\
  match reply (block_step k w) with
  | Ok _ => sent (events (block_step k w)) = thaw_order k w
  | Exc => prefix (sent (events (block_step k w))) (thaw_order k w)
  end.
Proof.
  intros He Hl Hc Hf Ht. apply block_step_submits.
  eapply submits_at_from.
  - apply process_block_thaw; assumption.
  - reflexivity.
  - reflexivity.
  - reflexivity.
  - unfold thaw_order. apply submits_at_bind.
    + apply (thaw_cage_submits (mkState k w _)).
    + intros _. apply (submits_bind _ _ [] [_]);
        [apply submits_info | intros _; apply submits_transact].
Qed.

(** *** The facilitation phase *)

Lemma facilitate_processing_period_submits s :
  submits_then (fun tx => settling_call tx = true)
    facilitate_processing_period s
    (yanks (all_active_auctions (dss (self s)) (world s)) ++
     cages (collaterals_with_debt (dss (self s)) (world s))).
Proof.
  unfold facilitate_processing_period.
  apply submits_then_info, submits_then_get_collaterals. cbv zeta.
  apply submits_then_get_self, submits_then_read.
  cbn [log self world trace].
  apply submits_then_bind.
  - unfold yank_auctions, yanks.
    apply submits_at_bind; [| intros _];
      apply submits_for_each_transact.
  - intros _ s1.
    rewrite <- (app_nil_r (cages _)).
    apply submits_then_bind.
    + unfold cages. rewrite <- (map_map ilk (fun i => EndCage (name i))).
      apply submits_for_each_transact.
    + intros _ s2. apply frames_submits_then.
      apply frames_bind; [| intros _].
      { repeat frames_step. }
      apply frames_bind; [| intros _].
      { repeat frames_step. }
      apply frames_bind; [| intros urns].
      { apply get_underwater_urns_frames; intros; exact I. }
      repeat frames_step.
Qed.

Lemma process_block_submits_then P k w m s' pre plan :
  process_block (mkState k w []) = m s' ->
  trace s' = pre -> sent pre = [] ->
  submits_then P m s' plan ->
  exists rest,
    Forall P rest /\
    match reply (block_step k w) with
    | Ok _ => sent (events (block_step k w)) = plan ++ rest
    | Exc => prefix (sent (events (block_step k w))) (plan ++ rest)
    end.
Proof.
  intros E Ht Hpre [Hs' [evs [rest [Ht' [Hp Hr]]]]].
  unfold block_step. rewrite E.
  destruct (m s') as [r s2]. cbn [fst snd reply events] in *.
  exists rest. split; [assumption|].
  rewrite Ht', Ht, sent_app, Hpre. exact Hr.
Qed.

(** *** Thawing, block after block *)

Lemma ready_to_thaw_step k w :
  ready_to_thaw k -> ready_to_thaw (after (block_step k w)).
Proof.
  intros (He & Hc & Hf). unfold ready_to_thaw.
  destruct (step_constants k w) as (_ & _ & _ & Hm & He').
  rewrite Hm, He', step_confirmations, step_cageFacilitated, Hf, Hc.
  rewrite andb_false_r. auto.
Qed.

Lemma thaw_order_thaw k w : In EndThaw (thaw_order k w).
Proof.
  unfold thaw_order, thaw_calls. cbv zeta.
  rewrite !in_app_iff. left. right. left. left. reflexivity.
Qed.

Lemma thaw_order_burn k w : In EsmBurn (thaw_order k w).
Proof. unfold thaw_order. rewrite in_app_iff. right. left. reflexivity. Qed.

(** C3 (amended). The keeper has no thawed state: after a block has submitted
    calls of the thaw phase, every later block of the run that reads [live]
    false at a time past [when + wait] submits the whole thaw phase and the
    burn again, unless one of its calls raises. *)
Theorem thaw_repeats k blocks i j st_i st_j :
  nth_error (history k blocks) i = Some st_i ->
  nth_error (history k blocks) j = Some st_j ->
  (i < j)%nat ->
  thaws st_i = true ->
  end_live (at_block st_j) = false ->
  thaw_time_reached (at_block st_j) = true ->
  reply st_j = Ok tt ->
  sent (events st_j) = thaw_order (before st_j) (at_block st_j) /\
  In EndThaw (sent (events st_j)) /\ In EsmBurn (sent (events st_j)).
Proof.
  intros Hi Hj Hlt Hthaw Hlive Htime Hok.
  pose proof (history_steps blocks k) as Hsteps.
  rewrite Forall_forall in Hsteps.
  pose proof (Hsteps st_i (nth_error_In _ _ Hi)) as Ei.
  pose proof (Hsteps st_j (nth_error_In _ _ Hj)) as Ej.
  rewrite Ei in Hthaw. apply step_thaws in Hthaw.
  destruct Hthaw as (He & _ & Hc & Hf & _).
  assert (Hready : ready_to_thaw (after st_i)).
  { rewrite Ei. apply ready_to_thaw_step. repeat split; assumption. }
  destruct (history_later blocks k i j st_i st_j Hi Hj Hlt) as [blocks' Hin].
  pose proof (history_invariant ready_to_thaw ready_to_thaw_step blocks'
                (after st_i) Hready) as Hinv.
  rewrite Forall_forall in Hinv.
  destruct (Hinv st_j Hin) as [(He' & Hc' & Hf') _].
  assert (Hdue : thaw_due (at_block st_j) = true).
  { destruct (thaw_due (at_block st_j)) eqn:Hdue; [reflexivity|].
    pose proof (waiting_block _ _ He' Hlive Hc' Hf' Hdue) as Hwait.
    rewrite thaw_due_differs in Hwait by congruence.
    rewrite <- Ej in Hwait. rewrite Hwait in Hok. discriminate. }
  destruct (thaw_block (before st_j) (at_block st_j) He' Hlive Hc' Hf' Hdue)
    as [_ Hsent].
  rewrite <- Ej, Hok in Hsent.
  rewrite Hsent.
  auto using thaw_order_thaw, thaw_order_burn.
Qed.

(** X13. A block submits calls of the thaw phase only when the time test of
    [check_cage] holds, and then submits them in the order of [thaw_order]:
    the heal (only when the vow holds Dai), the thaw, the fix and the
    revocations of each collateral type, the peg module's calls when
    configured, the burn last; all of them when the block returns, the first
    few when a call raises. *)
Theorem thaw_phase_in_order k w :
  thaws (block_step k w) = true ->
  thaw_due w = true /\
  match reply (block_step k w) with
  | Ok _ => sent (events (block_step k w)) = thaw_order k w
  | Exc => prefix (sent (events (block_step k w))) (thaw_order k w)
  end.
Proof.
  intros H. apply step_thaws in H. destruct H as (He & Hl & Hc & Hf & Ht).
  split; [assumption|].
  apply thaw_block; assumption.
Qed.

Lemma in_collaterals_with_debt d w c :
  In c (collaterals_with_debt d w) <->
  In c (collaterals d) /\ name (ilk c) <> "SAI"%string /\
  0 < art (vat_ilk w (name (ilk c))).
Proof.
  unfold collaterals_with_debt. rewrite !filter_In, negb_true_iff.
  unfold gt. rewrite Z.ltb_lt, String.eqb_neq. tauto.
Qed.

(** C9 (amended). A thaw phase that runs to its end sets the final redemption
    ratio of every collateral type other than SAI whose debt is positive, and
    revokes the permission of its clipper and of its flipper, whichever it
    has. *)
Theorem thaw_fixes_collaterals_with_debt k w c :
  thaws (block_step k w) = true ->
  reply (block_step k w) = Ok tt ->
  In c (collaterals (dss k)) ->
  name (ilk c) <> "SAI"%string ->
  0 < art (vat_ilk w (name (ilk c))) ->
  In (EndFlow (name (ilk c))) (sent (events (block_step k w))) /\
  (forall a, clipper c = Some a \/ flipper c = Some a ->
             In (EsmDeny a) (sent (events (block_step k w)))).
Proof.
  intros Hthaw Hok Hc Hsai Hart.
  apply step_thaws in Hthaw. destruct Hthaw as (He & Hl & H12 & Hf & Ht).
  destruct (thaw_block k w He Hl H12 Hf Ht) as [_ Hsent].
  rewrite Hok in Hsent. rewrite Hsent.
  assert (Hin : In c (collaterals_with_debt (dss k) w)).
  { apply in_collaterals_with_debt. auto. }
  assert (Hfix : forall tx, In tx (EndFlow (name (ilk c)) :: denies c) ->
                            In tx (thaw_order k w)).
  { intros tx Htx. unfold thaw_order, thaw_calls. cbv zeta.
    rewrite !in_app_iff. left. right. right. left.
    apply in_flat_map. exists c. auto. }
  split.
  - apply Hfix. left. reflexivity.
  - intros a Ha. apply Hfix. right. unfold denies. rewrite in_app_iff.
    destruct Ha as [-> | ->]; [left | right]; left; reflexivity.
Qed.

(** *** Caging before settling *)

Lemma NoDup_map_filter {A B} (f : A -> B) (p : A -> bool) l :
  NoDup (map f l) -> NoDup (map f (filter p l)).
Proof.
  induction l as [|x l IH]; cbn; intros H; [constructor|].
  inversion H as [|? ? Hx Hl]; subst.
  destruct (p x); cbn; auto.
  constructor; auto.
  intros Hin. apply Hx. apply in_map_iff in Hin.
  destruct Hin as [y [Hy Hin]]. apply filter_In in Hin.
  apply in_map_iff. exists y. tauto.
Qed.

Lemma NoDup_map_injective {A B} (f : A -> B) l :
  (forall x y, f x = f y -> x = y) -> NoDup l -> NoDup (map f l).
Proof.
  intros Hinj. induction 1 as [|x l Hx _ IH]; cbn; constructor; auto.
  intros Hin. apply in_map_iff in Hin. destruct Hin as [y [E Hy]].
  apply Hinj in E. subst. contradiction.
Qed.

Lemma NoDup_split {A} (x : A) l :
  In x l -> NoDup l ->
  exists l1 l2, l = l1 ++ x :: l2 /\ ~ In x l1 /\ ~ In x l2.
Proof.
  intros Hin Hnd. destruct (in_split x l Hin) as [l1 [l2 ->]].
  exists l1, l2. split; [reflexivity|].
  apply NoDup_remove_2 in Hnd. rewrite in_app_iff in Hnd. tauto.
Qed.

Lemma yanks_not_settling a :
  Forall (fun tx => settling_call tx = false /\ forall n, tx <> EndCage n)
    (yanks a).
Proof.
  unfold yanks. apply Forall_app. split; apply Forall_forall; intros tx Htx;
    apply in_map_iff in Htx; destruct Htx as [b [<- _]];
    (split; [reflexivity | discriminate]).
Qed.

Lemma cages_not_settling cs :
  Forall (fun tx => settling_call tx = false) (cages cs).
Proof.
  unfold cages. apply Forall_forall. intros tx Htx.
  apply in_map_iff in Htx. destruct Htx as [c [<- _]]. reflexivity.
Qed.

(** C8 (amended). The calls of a facilitation phase are the cancellations of
    the surplus and debt auctions, then [End.cage] for the collateral types
    other than SAI whose debt is positive, then only forced settlements
    (snip, skip, skim); a phase cut short by an exception submitted the first
    few of them.  When the phase runs to its end and the deployment's
    collateral types have distinct names, each such type is caged exactly
    once, with no forced settlement before it. *)
Theorem cages_debt_before_settling k w :
  facilitates (block_step k w) = true ->
  let cs := collaterals_with_debt (dss k) w in
  let txs := sent (events (block_step k w)) in
  exists rest,
    Forall (fun tx => settling_call tx = true) rest /\
    match reply (block_step k w) with
    | Ok _ => txs = (yanks (all_active_auctions (dss k) w) ++ cages cs) ++ rest
    | Exc =>
        prefix txs ((yanks (all_active_auctions (dss k) w) ++ cages cs) ++ rest)
    end /\
    (forall c, In c (collaterals (dss k)) ->
       (In (EndCage (name (ilk c))) (cages cs) <->
        name (ilk c) <> "SAI"%string /\ 0 < art (vat_ilk w (name (ilk c))))) /\
    (reply (block_step k w) = Ok tt ->
     NoDup (map (fun c => name (ilk c)) (collaterals (dss k))) ->
     forall c, In c (collaterals (dss k)) ->
       name (ilk c) <> "SAI"%string ->
       0 < art (vat_ilk w (name (ilk c))) ->
       exists pre post,
         txs = pre ++ EndCage (name (ilk c)) :: post /\
         ~ In (EndCage (name (ilk c))) pre /\
         ~ In (EndCage (name (ilk c))) post /\
         Forall (fun tx => settling_call tx = false) pre).
Proof.
  intros Hfac cs txs.
  rewrite step_facilitates in Hfac.
  repeat (apply andb_prop in Hfac; destruct Hfac as [Hfac ?]).
  assert (Hl : end_live w = false) by (destruct (end_live w); [discriminate | reflexivity]).
  assert (Hf : cageFacilitated k = false)
    by (destruct (cageFacilitated k); [discriminate | reflexivity]).
  zbool.
  assert (Hrun : exists rest,
             Forall (fun tx => settling_call tx = true) rest /\
             match reply (block_step k w) with
             | Ok _ =>
                 txs = (yanks (all_active_auctions (dss k) w) ++ cages cs) ++ rest
             | Exc =>
                 prefix txs
                   ((yanks (all_active_auctions (dss k) w) ++ cages cs) ++ rest)
             end).
  { eapply process_block_submits_then.
    - apply process_block_facilitation; assumption.
    - reflexivity.
    - reflexivity.
    - apply (facilitate_processing_period_submits
               (mkState (set_cageFacilitated true k) w _)). }
  destruct Hrun as [rest [Hrest Hsent]].
  assert (Hcaged : forall c, In c (collaterals (dss k)) ->
            (In (EndCage (name (ilk c))) (cages cs) <->
             name (ilk c) <> "SAI"%string /\ 0 < art (vat_ilk w (name (ilk c))))).
  { intros c Hc. unfold cages. rewrite in_map_iff. split.
    - intros [c' [E Hin]]. apply in_collaterals_with_debt in Hin.
      injection E as E. rewrite <- E. tauto.
    - intros [Hsai Hart]. exists c. split; [reflexivity|].
      apply in_collaterals_with_debt. auto. }
  exists rest. split; [exact Hrest|]. split; [exact Hsent|].
  split; [exact Hcaged|].
  intros Hok Hnd c Hc Hsai Hart.
  rewrite Hok in Hsent.
  assert (Hnd' : NoDup (cages cs)).
  { unfold cages, cs, collaterals_with_debt.
    rewrite <- (map_map (fun c => name (ilk c)) EndCage).
    apply NoDup_map_injective.
    - intros x y E. injection E. auto.
    - apply NoDup_map_filter, NoDup_map_filter, Hnd. }
  assert (Hin : In (EndCage (name (ilk c))) (cages cs))
    by (apply Hcaged; auto).
  destruct (NoDup_split _ _ Hin Hnd') as [l1 [l2 [E [Hpre Hpost]]]].
  pose proof (yanks_not_settling (all_active_auctions (dss k) w)) as Hy.
  pose proof (cages_not_settling cs) as Hcs.
  rewrite Forall_forall in Hy, Hcs, Hrest.
  exists (yanks (all_active_auctions (dss k) w) ++ l1), (l2 ++ rest).
  split; [|split; [|split]].
  - rewrite Hsent, E, <- !app_assoc. reflexivity.
  - rewrite in_app_iff. intros [Hin'|Hin']; [|contradiction].
    apply Hy in Hin'. destruct Hin' as [_ Hne]. apply (Hne _ eq_refl).
  - rewrite in_app_iff. intros [Hin'|Hin']; [contradiction|].
    apply Hrest in Hin'. discriminate.
  - apply Forall_app. split; apply Forall_forall; intros tx Htx.
    + apply Hy in Htx. tauto.
    + apply Hcs. rewrite E, in_app_iff. auto.
Qed.

(** *** Auction classification *)

Lemma in_range lo hi i : In i (range lo hi) <-> lo <= i < hi.
Proof.
  unfold range. rewrite in_map_iff. split.
  - intros [n [<- Hn]]. apply in_seq in Hn. lia.
  - intros H. exists (Z.to_nat (i - lo)). split; [lia|].
    apply in_seq. lia.
Qed.

Lemma fold_left_append {A B} (f : A -> B) (p : B -> bool) xs : forall acc,
  fold_left (fun active x => if p (f x) then active ++ [f x] else active) xs acc
  = acc ++ filter p (map f xs).
Proof.
  induction xs as [|x xs IH]; intros acc; cbn.
  - symmetry; apply app_nil_r.
  - rewrite IH. destruct (p (f x)); [rewrite <- app_assoc|]; reflexivity.
Qed.

Lemma fold_left_pointwise {A B} (f g : A -> B -> A) xs :
  (forall acc x, f acc x = g acc x) ->
  forall acc, fold_left f xs acc = fold_left g xs acc.
Proof.
  intros H. induction xs as [|x xs IH]; intros acc; cbn; [reflexivity|].
  rewrite H. apply IH.
Qed.

Lemma cage_active_auctions_flipper w a :
  cage_active_auctions w (Flipper a) = filter skippable (bids_upto w a).
Proof.
  unfold cage_active_auctions, bids_upto. cbn [auction_address].
  rewrite <- (app_nil_l (filter _ _)), <- fold_left_append.
  apply fold_left_pointwise. intros acc i. unfold skippable, has_bidder.
  destruct (negb _); cbn [andb]; reflexivity.
Qed.

Lemma cage_active_auctions_other w a :
  cage_active_auctions w (Flapper a) = filter has_bidder (bids_upto w a) /\
  cage_active_auctions w (Flopper a) = filter has_bidder (bids_upto w a).
Proof.
  unfold cage_active_auctions, bids_upto. cbn [auction_address].
  rewrite <- (app_nil_l (filter _ _)), <- fold_left_append.
  split; reflexivity.
Qed.

Lemma in_bids_upto w a b :
  In b (bids_upto w a) <-> exists i, 1 <= i <= kicks w a /\ b = bids w a i.
Proof.
  unfold bids_upto. rewrite in_map_iff. split.
  - intros [i [<- Hi]]. apply in_range in Hi. exists i. split; [lia | reflexivity].
  - intros [i [Hi ->]]. exists i. split; [reflexivity|]. apply in_range. lia.
Qed.

Lemma has_bidder_true b : has_bidder b = true <-> guy b <> zero_address.
Proof. unfold has_bidder. rewrite negb_true_iff. apply String.eqb_neq. Qed.

(** C6. For a flipper the list is the bids at ids 1 to [kicks], in order, that
    have a bidder other than the zero address and a bid strictly below the
    tab; for the flapper and the flopper, those that have such a bidder; for a
    clipper, what its [active_auctions] query returns.  The keeper yanks,
    skips and snips from these lists. *)
Theorem auction_classification w a :
  (cage_active_auctions w (Flipper a) = filter skippable (bids_upto w a) /\
   forall b, In b (cage_active_auctions w (Flipper a)) <->
     exists i, 1 <= i <= kicks w a /\ b = bids w a i /\
               guy b <> zero_address /\ bid b < tab b) /\
  (forall h, h = Flapper a \/ h = Flopper a ->
     cage_active_auctions w h = filter has_bidder (bids_upto w a) /\
     forall b, In b (cage_active_auctions w h) <->
       exists i, 1 <= i <= kicks w a /\ b = bids w a i /\
                 guy b <> zero_address) /\
  cage_active_auctions w (Clipper a) = active_auctions w a /\
  (forall d,
     flaps (all_active_auctions d w) = cage_active_auctions w (Flapper (flapper d)) /\
     flops (all_active_auctions d w) = cage_active_auctions w (Flopper (flopper d))).
Proof.
  split; [|split; [|split]].
  - split; [apply cage_active_auctions_flipper|].
    intros b. rewrite cage_active_auctions_flipper, filter_In, in_bids_upto.
    unfold skippable. rewrite andb_true_iff, has_bidder_true, Z.ltb_lt.
    split.
    + intros [[i [Hi E]] [Hg Hb]]. exists i. auto.
    + intros [i [Hi [E [Hg Hb]]]]. split; [exists i|]; auto.
  - intros h Hh.
    assert (E : cage_active_auctions w h = filter has_bidder (bids_upto w a)).
    { destruct Hh as [-> | ->]; apply cage_active_auctions_other. }
    split; [exact E|].
    intros b. rewrite E, filter_In, in_bids_upto, has_bidder_true.
    split.
    + intros [[i [Hi Eb]] Hg]. exists i. auto.
    + intros [i [Hi [Eb Hg]]]. split; [exists i|]; auto.
  - reflexivity.
  - intros d. unfold all_active_auctions.
    destruct (fold_left _ _ _). split; reflexivity.
Qed.

(** The spec's three bids: 80 against a tab of 100 is skipped, 100 against
    100 is not, and a bid without bidder is not, whatever its amounts. *)
Example skippable_bids :
  skippable (mkBid 1 "0xA1"%string 80 100) = true /\
  skippable (mkBid 2 "0xA1"%string 100 100) = false /\
  forall i b t, skippable (mkBid i zero_address b t) = false.
Proof. repeat split. Qed.

(** *** The urn scan *)

Lemma scan_urn_spec i acc n u s :
  scan_urn i (acc, n) u s =
    (Ok (acc ++ filter (underwater (world s)) [refreshed (world s) u], n + 1),
     if (n + 1) mod 100 =? 0 then log s (Processed (n + 1) (name i)) else s).
Proof.
  unfold scan_urn. rewrite !bind_read.
  cbn [filter]. unfold underwater, refreshed, gt.
  destruct (_ <? _); destruct ((n + 1) mod 100 =? 0); cbn [when_];
    rewrite ?bind_info, ?bind_ret, ?app_nil_r; reflexivity.
Qed.

Lemma scan_urns_spec i urns : forall acc n s,
  exists s',
    fold_each urns (acc, n) (scan_urn i) s =
      (Ok (acc ++ filter (underwater (world s)) (map (refreshed (world s)) urns),
           n + Z.of_nat (List.length urns)), s') /\
    self s' = self s /\ world s' = world s.
Proof.
  induction urns as [|u urns IH]; intros acc n s.
  - exists s. cbn. rewrite app_nil_r, Z.add_0_r. auto.
  - cbn [fold_each]. unfold bind at 1. rewrite scan_urn_spec.
    match goal with
    | |- context [fold_each urns ?b _ ?s1] =>
        destruct (IH (fst b) (snd b) s1) as [s' [E [Hs Hw]]]
    end.
    cbn [fst snd] in E.
    assert (Hw1 : world (if (n + 1) mod 100 =? 0
                         then log s (Processed (n + 1) (name i)) else s)
                  = world s)
      by (destruct (_ =? _); reflexivity).
    assert (Hs1 : self (if (n + 1) mod 100 =? 0
                        then log s (Processed (n + 1) (name i)) else s)
                  = self s)
      by (destruct (_ =? _); reflexivity).
    exists s'. rewrite E, Hw1.
    split; [|split; congruence].
    cbn [map filter List.length app].
    replace (n + 1 + Z.of_nat (List.length urns))
      with (n + Z.of_nat (S (List.length urns))) by lia.
    destruct (underwater (world s) (refreshed (world s) u));
      rewrite <- ?app_assoc, ?app_nil_r; reflexivity.
Qed.

Lemma scan_ilks_spec k ilks : forall acc s,
  exists s',
    fold_each ilks acc (scan_ilk k) s =
      (Ok (acc ++ underwater_urns k (world s) ilks), s') /\
    self s' = self s /\ world s' = world s.
Proof.
  induction ilks as [|i ilks IH]; intros acc s.
  - exists s. cbn. rewrite app_nil_r. auto.
  - cbn [fold_each]. unfold scan_ilk at 1.
    unfold bind at 1. rewrite bind_read, bind_info.
    destruct (scan_urns_spec i (get_urns k (world s) i) acc 0
                (mkState (self s) (world s)
                   (trace s ++
                    [Logged (Collected
                               (Z.of_nat (List.length (get_urns k (world s) i)))
                               (name i))])))
      as [s1 [E1 [Hs1 Hw1]]].
    cbn [self world] in *.
    unfold bind at 1. rewrite E1. unfold ret at 1. cbn [fst].
    destruct (IH (acc ++ filter (underwater (world s))
                          (map (refreshed (world s)) (get_urns k (world s) i))) s1)
      as [s' [E [Hs Hw]]].
    exists s'. rewrite E, Hw1. unfold underwater_urns. cbn [flat_map].
    rewrite <- app_assoc. split; [reflexivity|]. split; congruence.
Qed.

Lemma get_underwater_urns_spec ilks s :
  exists s',
    get_underwater_urns ilks s =
      (Ok (underwater_urns (self s) (world s) ilks), s') /\
    self s' = self s /\ world s' = world s.
Proof.
  unfold get_underwater_urns. rewrite bind_get_self.
  apply (scan_ilks_spec (self s) ilks [] s).
Qed.

(** C5. The scan returns, and a discovered position, its ilk read again from
    the vat, is in the list returned if and only if [Ray(art) * rate] is
    strictly above [Ray(ink) * spot * mat], the products being those of rays;
    so a position whose two values are equal is not flagged.  Nothing else
    is in the list. *)
Theorem underwater_classification ilks s i u0 :
  In i ilks ->
  In u0 (get_urns (self s) (world s) i) ->
  let fresh := vat_ilk (world s) (name (urn_ilk u0)) in
  let mat := spotter_mat (world s) (name (urn_ilk u0)) in
  let debtValue := mul (Ray_of_Wad (urn_art u0)) (rate fresh) in
  let collateralValue := mul (mul (Ray_of_Wad (ink u0)) (spot fresh)) mat in
  exists flagged s',
    get_underwater_urns ilks s = (Ok flagged, s') /\
    (In (set_urn_ilk fresh u0) flagged <-> debtValue > collateralValue) /\
    (debtValue = collateralValue -> ~ In (set_urn_ilk fresh u0) flagged) /\
    (forall u, In u flagged ->
       exists i' u', In i' ilks /\ In u' (get_urns (self s) (world s) i') /\
                     u = refreshed (world s) u' /\ underwater (world s) u = true).
Proof.
  intros Hi Hu fresh mat debtValue collateralValue.
  destruct (get_underwater_urns_spec ilks s) as [s' [E _]].
  exists (underwater_urns (self s) (world s) ilks), s'.
  split; [exact E|].
  assert (Hname : name fresh = name (urn_ilk u0)).
  { unfold fresh, vat_ilk. destruct (vat_ilks _ _) as [[? ?] ?]. reflexivity. }
  assert (Hunder : underwater (world s) (set_urn_ilk fresh u0)
                   = (collateralValue <? debtValue)).
  { unfold underwater, usdDebt, usdCollateral. cbn [urn_ilk urn_art ink set_urn_ilk].
    rewrite Hname. reflexivity. }
  assert (Hchar : forall u, In u (underwater_urns (self s) (world s) ilks) <->
            exists i' u', In i' ilks /\ In u' (get_urns (self s) (world s) i') /\
                          u = refreshed (world s) u' /\ underwater (world s) u = true).
  { intros u. unfold underwater_urns. rewrite in_flat_map. split.
    - intros [i' [Hi' Hin]]. apply filter_In in Hin. destruct Hin as [Hin Hw].
      apply in_map_iff in Hin. destruct Hin as [u' [<- Hu']].
      exists i', u'. auto.
    - intros [i' [u' [Hi' [Hu' [-> Hw]]]]]. exists i'. split; [assumption|].
      apply filter_In. split; [apply in_map; assumption | assumption]. }
  assert (Hiff : In (set_urn_ilk fresh u0) (underwater_urns (self s) (world s) ilks)
                 <-> debtValue > collateralValue).
  { rewrite Hchar. split.
    - intros [i' [u' [_ [_ [_ Hw]]]]]. rewrite Hunder in Hw.
      apply Z.ltb_lt in Hw. lia.
    - intros Hgt. exists i, u0. repeat split; try assumption.
      rewrite Hunder. apply Z.ltb_lt. lia. }
  split; [exact Hiff|]. split.
  - intros Heq Hin. apply Hiff in Hin. lia.
  - intros u Hin. apply Hchar. exact Hin.
Qed.

(** *** The error counter *)

Lemma errors_constant blocks k :
  Forall (fun st => errors (before st) = errors k /\ errors (after st) = errors k)
    (history k blocks).
Proof.
  apply (history_invariant (fun k' => errors k' = errors k)); [|reflexivity].
  intros k' w H. destruct (step_constants k' w) as (_ & _ & _ & _ & He).
  congruence.
Qed.

(** Whatever becomes of the calls, the counter of errors stays at 0. *)
Lemma errors_never_counted args d blocks :
  Forall (fun st => errors (after st) = 0) (history (init args d) blocks).
Proof.
  eapply Forall_impl; [| apply (errors_constant blocks (init args d))].
  intros st [_ H]. exact H.
Qed.

(** *** Blocks that do nothing, and the order of the phases *)

Lemma last_cons {A} (a d : A) l : last (a :: l) d = last l a.
Proof.
  revert a d. induction l as [|b l IH]; intros a d; [reflexivity|].
  change (last (a :: b :: l) d) with (last (b :: l) d).
  rewrite !IH. reflexivity.
Qed.

Lemma keeper_after_cons k w blocks :
  terminated k = false ->
  keeper_after k (w :: blocks) = keeper_after (after (block_step k w)) blocks.
Proof.
  intros H. unfold keeper_after. rewrite history_cons by assumption.
  cbn [map]. apply last_cons.
Qed.

Lemma confirmations_after blocks : forall k,
  errors k < max_errors k -> terminated k = false ->
  0 <= confirmations k <= 12 ->
  confirmations (keeper_after k blocks) =
    Z.min 12 (confirmations k + caged_blocks blocks).
Proof.
  induction blocks as [|w blocks IH]; intros k He Ht Hc.
  - unfold keeper_after, caged_blocks. destruct (terminated k); cbn; lia.
  - rewrite keeper_after_cons by assumption.
    destruct (step_constants k w) as (_ & _ & _ & Hm & He').
    rewrite IH.
    + rewrite step_confirmations.
      unfold caged_blocks. cbn [filter].
      destruct (Z.ltb_spec (errors k) (max_errors k)); [|lia].
      destruct (end_live w); cbn [negb andb List.length]; [reflexivity|].
      destruct (Z.ltb_spec (confirmations k) 12); lia.
    + rewrite Hm, He'. assumption.
    + rewrite step_terminated, Ht. cbn [orb].
      rewrite Z.geb_leb. apply Z.leb_gt. assumption.
    + apply confirmations_range_step. assumption.
Qed.

(** X1. With [--max-errors] at 0 or below the first block terminates the
    keeper before it reads the chain: the run is that one block, which logs
    nothing, submits nothing and leaves the other fields as [__init__] set
    them. *)
Theorem terminates_at_first_block args d blocks :
  arg_max_errors args <= 0 ->
  history (init args d) blocks =
    match blocks with
    | [] => []
    | w :: _ =>
        [mkStep (init args d) w (Ok tt) [] (set_terminated true (init args d))]
    end.
Proof.
  intros H. destruct blocks as [|w blocks]; [reflexivity|].
  rewrite history_cons by reflexivity.
  rewrite block_step_eq.
  assert (Hge : (errors (init args d) >=? max_errors (init args d)) = true).
  { rewrite Z.geb_leb. apply Z.leb_le. cbn. assumption. }
  rewrite Hge. cbn [after].
  rewrite history_terminated by reflexivity. reflexivity.
Qed.

(** X2. With a positive [--max-errors], the counter after a run is the number
    of blocks that found [live] false, capped at 12: a block that finds
    [live] true neither resets nor lowers it, so the 12 confirmations need
    not be consecutive. *)
Theorem confirmations_count_caged_blocks args d blocks :
  0 < arg_max_errors args ->
  confirmations (keeper_after (init args d) blocks) =
    Z.min 12 (caged_blocks blocks).
Proof.
  intros H.
  rewrite confirmations_after; cbn [init errors max_errors terminated confirmations];
    auto; lia.
Qed.

Lemma no_calls_unless_final k w :
  sent (events (block_step k w)) <> [] ->
  errors k < max_errors k /\ end_live w = false /\ confirmations k = 12 /\
  (cageFacilitated k = false \/ thaw_due w = true).
Proof.
  step_cases k w; try rewrite Ht; cbn [sent flat_map app];
    intros Hsent; try congruence; auto.
Qed.


Lemma latched_earlier blocks : forall k j st_j,
  cageFacilitated k = false ->
  nth_error (history k blocks) j = Some st_j ->
  cageFacilitated (before st_j) = true ->
  exists i st_i,
    (i < j)%nat /\ nth_error (history k blocks) i = Some st_i /\
    facilitates st_i = true.
Proof.
  induction blocks as [|w blocks IH]; intros k j st_j Hk Hj Hb.
  - destruct j; discriminate.
  - destruct (terminated k) eqn:Hterm.
    + rewrite history_terminated in Hj by assumption. destruct j; discriminate.
    + rewrite history_cons in * by assumption.
      destruct j as [|j]; cbn [nth_error] in Hj.
      * injection Hj as <-. rewrite block_step_before in Hb. congruence.
      * destruct (cageFacilitated (after (block_step k w))) eqn:Hafter.
        -- exists 0%nat, (block_step k w). split; [lia|]. split; [reflexivity|].
           rewrite step_cageFacilitated, Hk in Hafter. cbn [orb] in Hafter.
           rewrite step_facilitates, Hafter, Hk. reflexivity.
        -- destruct (IH _ j st_j Hafter Hj Hb) as [i [st_i [Hlt [Hi Hf]]]].
           exists (S i), st_i. split; [lia|]. auto.
Qed.

(** X4. No block both facilitates and thaws, and in a run not started with
    [--previous-cage] every block that submits a call of the thaw phase comes
    after a block that facilitated: the thaw starts one block after
    facilitation at the earliest, and never without it. *)
Theorem thaw_follows_facilitation args d blocks j st_j :
  previous_cage args = false ->
  nth_error (history (init args d) blocks) j = Some st_j ->
  thaws st_j = true ->
  facilitates st_j = false /\
  exists i st_i,
    (i < j)%nat /\
    nth_error (history (init args d) blocks) i = Some st_i /\
    facilitates st_i = true.
Proof.
  intros Hp Hj Hthaw.
  pose proof (history_steps blocks (init args d)) as Hsteps.
  rewrite Forall_forall in Hsteps.
  pose proof (Hsteps st_j (nth_error_In _ _ Hj)) as Ej.
  rewrite Ej in Hthaw. apply step_thaws in Hthaw.
  destruct Hthaw as (_ & _ & _ & Hf & _).
  split.
  - rewrite Ej, step_facilitates, Hf. apply andb_false_r.
  - apply (latched_earlier blocks (init args d) j st_j); auto.
Qed.

(** *** Exceptions *)

Lemma orderly_ret {A} (a : A) : orderly (ret a).
Proof. intros s. exists []. cbn. rewrite app_nil_r. auto. Qed.

Lemma orderly_get_self : orderly get_self.
Proof. intros s. exists []. cbn. rewrite app_nil_r. auto. Qed.

Lemma orderly_read {A} (f : World -> A) : orderly (read f).
Proof. intros s. exists []. cbn. rewrite app_nil_r. auto. Qed.

Lemma orderly_modify_self f : orderly (modify_self f).
Proof. intros s. exists []. cbn. rewrite app_nil_r. auto. Qed.

Lemma orderly_info m : orderly (info m).
Proof.
  intros s. exists [Logged m]. cbn. split; [reflexivity|].
  constructor; [exact I | constructor].
Qed.

Lemma orderly_transact tx : orderly (transact tx).
Proof.
  intros s. unfold transact.
  destruct (node tx (world s)) as [w' o] eqn:E.
  assert (Ho : snd (node tx (world s)) = o) by (rewrite E; reflexivity).
  exists [Sent tx o]. destruct o; cbn; (split; [reflexivity|]).
  - constructor; [|constructor]. split; [discriminate | eauto].
  - constructor; [|constructor]. split; [discriminate | eauto].
  - exists [], tx, (world s). auto.
Qed.

Lemma orderly_bind {A B} (m : M A) (f : A -> M B) :
  orderly m -> (forall a, orderly (f a)) -> orderly (bind m f).
Proof.
  intros Hm Hf s. unfold bind.
  destruct (Hm s) as [evs [Ht He]].
  destruct (m s) as [[a|] s1]; cbn [fst snd] in *.
  - destruct (Hf a s1) as [evs' [Ht' He']].
    exists (evs ++ evs'). split; [rewrite Ht', Ht, app_assoc; reflexivity|].
    destruct (fst (f a s1)); cbn [ended] in *.
    + apply Forall_app; auto.
    + destruct He' as [pre [tx [w [-> [Hw Hpre]]]]].
      exists (evs ++ pre), tx, w. rewrite app_assoc.
      split; [reflexivity|]. split; [assumption|]. apply Forall_app; auto.
  - exists evs. auto.
Qed.

Lemma orderly_when c m : orderly m -> orderly (when_ c m).
Proof. intros H. destruct c; [exact H | apply orderly_ret]. Qed.

Lemma orderly_for_each {A} (xs : list A) body :
  (forall x, In x xs -> orderly (body x)) -> orderly (for_each xs body).
Proof.
  induction xs as [|x xs IH]; intros H; cbn [for_each].
  - apply orderly_ret.
  - apply orderly_bind; [apply H; left; reflexivity | intros _].
    apply IH. intros y Hy. apply H. right. assumption.
Qed.

Lemma orderly_fold_each {A B} (xs : list A) (b : B) body :
  (forall b x, orderly (body b x)) -> orderly (fold_each xs b body).
Proof.
  intros H. revert b. induction xs as [|x xs IH]; intros b; cbn [fold_each].
  - apply orderly_ret.
  - apply orderly_bind; auto.
Qed.

(** A key of a dict is found in it: the lookups of
    [facilitate_processing_period] raise no [KeyError]. *)
Lemma dict_get_keys {V} (d : list (string * V)) key :
  In key (keys d) -> exists v, dict_get d key = Some v.
Proof.
  induction d as [|[k' v'] d IH]; cbn; [contradiction|].
  intros [-> | Hin].
  - rewrite String.eqb_refl. eauto.
  - destruct (k' =? key)%string; eauto.
Qed.

Lemma orderly_item {V} (d : list (string * V)) key :
  In key (keys d) -> orderly (item d key).
Proof.
  intros Hin. unfold item.
  destruct (dict_get_keys d key Hin) as [v ->]. apply orderly_ret.
Qed.

Ltac orderly_step :=
  first
    [ apply orderly_ret | apply orderly_get_self | apply orderly_read
    | apply orderly_modify_self | apply orderly_info | apply orderly_transact
    | apply orderly_when
    | apply orderly_fold_each; intros ? ?
    | apply orderly_bind; [| intros ?] ].

Lemma get_underwater_urns_orderly ilks : orderly (get_underwater_urns ilks).
Proof.
  unfold get_underwater_urns, scan_ilk.
  apply orderly_bind; [orderly_step | intros k].
  apply orderly_fold_each; intros acc i.
  apply orderly_bind; [orderly_step | intros urns].
  apply orderly_bind; [orderly_step | intros _].
  apply orderly_bind; [| intros r; orderly_step].
  apply orderly_fold_each; intros [acc' n] urn. unfold scan_urn.
  repeat orderly_step.
Qed.

Lemma settle_loop_orderly (d : list (string * list Bid)) call :
  orderly
    (for_each (keys d)
       (fun key =>
          i <- read (fun w => vat_ilk w key) ;;
          bs <- item d key ;;
          for_each bs (fun b => transact (call (name i) (id b))))).
Proof.
  apply orderly_for_each. intros key Hkey.
  apply orderly_bind; [orderly_step | intros i].
  apply orderly_bind; [apply orderly_item, Hkey | intros bs].
  apply orderly_for_each. intros b _. apply orderly_transact.
Qed.

Lemma facilitate_processing_period_orderly : orderly facilitate_processing_period.
Proof.
  unfold facilitate_processing_period, yank_auctions, get_collaterals.
  apply orderly_bind; [orderly_step | intros _].
  apply orderly_bind; [repeat orderly_step | intros cs].
  apply orderly_bind; [orderly_step | intros k].
  apply orderly_bind; [orderly_step | intros auctions].
  apply orderly_bind; [| intros _].
  { apply orderly_bind; [| intros _];
      apply orderly_for_each; intros b _; apply orderly_transact. }
  apply orderly_bind; [| intros _].
  { apply orderly_for_each; intros i _; apply orderly_transact. }
  apply orderly_bind; [apply (settle_loop_orderly _ EndSnip) | intros _].
  apply orderly_bind; [apply (settle_loop_orderly _ EndSkip) | intros _].
  apply orderly_bind; [apply get_underwater_urns_orderly | intros urns].
  apply orderly_for_each; intros u _; apply orderly_transact.
Qed.

Lemma thaw_cage_orderly : orderly thaw_cage.
Proof.
  unfold thaw_cage, get_collaterals.
  apply orderly_bind; [orderly_step | intros _].
  apply orderly_bind; [repeat orderly_step | intros cs].
  apply orderly_bind; [orderly_step | intros k].
  apply orderly_bind; [orderly_step | intros dai].
  apply orderly_bind; [repeat orderly_step | intros _].
  apply orderly_bind; [orderly_step | intros _].
  apply orderly_bind; [| intros _; repeat orderly_step].
  apply orderly_for_each; intros c _.
  apply orderly_bind; [orderly_step | intros _].
  destruct (clipper c), (flipper c); repeat orderly_step.
Qed.

(** A block that runs [m] after log lines only ends as [m] does. *)
Lemma orderly_block k w (m : M unit) s1 :
  process_block (mkState k w []) = m s1 ->
  (forall e, In e (trace s1) -> exists l, e = Logged l) ->
  orderly m ->
  ended (reply (block_step k w)) (events (block_step k w)).
Proof.
  intros E Hpre Hm.
  assert (Hlogs : Forall answered (trace s1)).
  { apply Forall_forall. intros e He. destruct (Hpre e He) as [l ->]. exact I. }
  destruct (Hm s1) as [evs [Ht He]].
  unfold block_step. rewrite E.
  destruct (m s1) as [r s']. cbn [fst snd reply events] in *.
  rewrite Ht. destruct r; cbn [ended] in *.
  - apply Forall_app; auto.
  - destruct He as [pre [tx [w' [-> [Hw Hp]]]]].
    exists (trace s1 ++ pre), tx, w'. rewrite app_assoc.
    split; [reflexivity|]. split; [assumption|]. apply Forall_app; auto.
Qed.

Lemma block_step_ended k w :
  match reply (block_step k w) with
  | Ok _ => Forall answered (events (block_step k w))
  | Exc =>
      (exists pre tx w',
         events (block_step k w) = pre ++ [Sent tx Raised] /\
         snd (node tx w') = Raised /\ Forall answered pre) \/
      raises_in_wait k w (events (block_step k w))
  end.
Proof.
  assert (Hweaken : ended (reply (block_step k w)) (events (block_step k w)) ->
    match reply (block_step k w) with
    | Ok _ => Forall answered (events (block_step k w))
    | Exc =>
        (exists pre tx w',
           events (block_step k w) = pre ++ [Sent tx Raised] /\
           snd (node tx w') = Raised /\ Forall answered pre) \/
        raises_in_wait k w (events (block_step k w))
    end).
  { destruct (reply (block_step k w)); cbn [ended]; auto. }
  assert (Hlogs : forall l1 l2 e,
            In e [Logged l1; Logged l2] -> exists l, e = Logged l).
  { intros l1 l2 e [<-|[<-|[]]]; eauto. }
  destruct (Z.ltb_spec (errors k) (max_errors k)) as [He|He].
  - destruct (negb (end_live w) && (confirmations k =? 12)) eqn:Hfinal.
    + apply andb_prop in Hfinal. destruct Hfinal as [Hl Hc].
      apply negb_true_iff in Hl. apply Z.eqb_eq in Hc.
      destruct (cageFacilitated k) eqn:Hf; [destruct (thaw_due w) eqn:Hd|].
      * apply Hweaken.
        eapply orderly_block;
          [apply process_block_thaw; assumption | apply Hlogs |].
        apply orderly_bind; [apply thaw_cage_orderly | intros _].
        repeat orderly_step.
      * rewrite (waiting_block k w He Hl Hc Hf Hd).
        destruct (utcfromtimestamp (thawedCage w)) eqn:Hu;
          cbn [reply events].
        -- repeat constructor.
        -- right. unfold raises_in_wait. auto 10.
      * apply Hweaken.
        eapply orderly_block;
          [apply process_block_facilitation; assumption | apply Hlogs |].
        apply facilitate_processing_period_orderly.
    + rewrite block_step_eq.
      assert (Hge : (errors k >=? max_errors k) = false).
      { rewrite Z.geb_leb. apply Z.leb_gt. assumption. }
      rewrite Hge.
      destruct (check_cage_spec (mkState k w [])) as [evs [Ht Hspec]].
      cbn [self world trace app] in Ht, Hspec. rewrite Hfinal in Hspec.
      cbn [reply events].
      destruct (negb (end_live w) && (confirmations k <? 13));
        destruct Hspec as (_ & Hok & ->); rewrite Hok, Ht; repeat constructor.
  - rewrite block_step_eq.
    assert (Hge : (errors k >=? max_errors k) = true).
    { rewrite Z.geb_leb. apply Z.leb_le. assumption. }
    rewrite Hge. cbn. constructor.
Qed.

(** X5. A block callback ends in an exception in two ways only.  Either at a
    call that raised, which is then the last thing the block does: every
    call before it was answered with a receipt or with [None], and nothing
    is logged or submitted after it.  Or during the processing wait, when
    the thaw time is no datetime and [datetime.utcfromtimestamp] raises: the
    block has then logged its two banners and submitted nothing, and such a
    block always ends so.  In particular the dict lookups of
    [facilitate_processing_period] raise no [KeyError]. *)
Theorem raise_ends_block k w :
  match reply (block_step k w) with
  | Ok _ => Forall answered (events (block_step k w))
  | Exc =>
      (exists pre tx w',
         events (block_step k w) = pre ++ [Sent tx Raised] /\
         snd (node tx w') = Raised /\ Forall answered pre) \/
      raises_in_wait k w (events (block_step k w))
  end /\
  (errors k < max_errors k /\ end_live w = false /\ confirmations k = 12 /\
   cageFacilitated k = true /\ thaw_due w = false /\
   utcfromtimestamp (thawedCage w) = None ->
   reply (block_step k w) = Exc /\
   events (block_step k w) =
     [Logged (CheckingCage (blockNumber w)); Logged SystemCaged]).
Proof.
  split; [exact (block_step_ended k w)|].
  intros (He & Hl & Hc & Hf & Hd & Hu).
  rewrite (waiting_block k w He Hl Hc Hf Hd), Hu. auto.
Qed.

(** *** The whole facilitation work list *)

Lemma chain_after_app p1 p2 w :
  chain_after (p1 ++ p2) w = chain_after p2 (chain_after p1 w).
Proof. unfold chain_after. apply fold_left_app. Qed.

Lemma lands_ret {A} (a : A) s : lands (ret a) s [].
Proof.
  split; [reflexivity|]. exists []. cbn. rewrite app_nil_r. auto.
Qed.

Lemma lands_transact tx s : lands (transact tx) s [tx].
Proof.
  unfold lands, transact, chain_after. cbn [fold_left].
  destruct (node tx (world s)) as [w' o].
  destruct o; cbn; (split; [reflexivity|]); eexists;
    (split; [reflexivity|]); cbn; auto using prefix_refl.
Qed.

Lemma lands_bind {A B} (m : M A) (f : A -> M B) s p1 p2 :
  lands m s p1 ->
  (forall a s', self s' = self s -> world s' = chain_after p1 (world s) ->
                lands (f a) s' p2) ->
  lands (bind m f) s (p1 ++ p2).
Proof.
  intros [Hs [evs [Ht Hr]]] Hf. unfold lands, bind.
  destruct (m s) as [[a|] s1]; cbn [fst snd] in *.
  - destruct Hr as [Hr Hw].
    destruct (Hf a s1 Hs Hw) as [Hs' [evs' [Ht' Hr']]].
    split; [congruence|].
    exists (evs ++ evs'). split; [rewrite Ht', Ht, app_assoc; reflexivity|].
    rewrite sent_app, Hr.
    destruct (fst (f a s1)).
    + destruct Hr' as [-> ->]. rewrite chain_after_app, Hw. auto.
    + apply prefix_app, Hr'.
  - split; [assumption|]. exists evs. split; [assumption|].
    apply prefix_app_r, Hr.
Qed.

Lemma lands_for_each {A} (xs : list A) body (plan : A -> list Tx) :
  (forall x s, lands (body x) s (plan x)) ->
  forall s, lands (for_each xs body) s (flat_map plan xs).
Proof.
  intros H. induction xs as [|x xs IH]; intros s; cbn [for_each flat_map].
  - apply lands_ret.
  - apply lands_bind; auto.
Qed.

Lemma lands_for_each_transact {A} (xs : list A) (call : A -> Tx) s :
  lands (for_each xs (fun x => transact (call x))) s (map call xs).
Proof.
  assert (E : flat_map (fun x => [call x]) xs = map call xs).
  { induction xs; cbn; congruence. }
  rewrite <- E.
  apply lands_for_each. intros x s'. apply lands_transact.
Qed.

Lemma lands_from {A} (m m' : M A) s s' pre plan :
  m s = m' s' -> self s' = self s -> world s' = world s ->
  trace s' = trace s ++ pre -> sent pre = [] ->
  lands m' s' plan -> lands m s plan.
Proof.
  intros E Hs Hw Ht Hpre [Hs' [evs [Ht' Hr]]]. unfold lands. rewrite E.
  split; [congruence|].
  exists (pre ++ evs). split; [rewrite Ht', Ht, app_assoc; reflexivity|].
  rewrite sent_app, Hpre, <- Hw. exact Hr.
Qed.

Lemma lands_info {A} m (f : unit -> M A) s plan :
  lands (f tt) (log s m) plan -> lands (bind (info m) f) s plan.
Proof. apply (lands_from _ _ s (log s m) [Logged m]); reflexivity. Qed.

Lemma lands_get_self {A} (f : Keeper -> M A) s plan :
  lands (f (self s)) s plan -> lands (bind get_self f) s plan.
Proof.
  apply (lands_from _ _ s s []); try reflexivity.
  symmetry; apply app_nil_r.
Qed.

Lemma lands_read {A B} (g : World -> B) (f : B -> M A) s plan :
  lands (f (g (world s))) s plan -> lands (bind (read g) f) s plan.
Proof.
  apply (lands_from _ _ s s []); try reflexivity.
  symmetry; apply app_nil_r.
Qed.

Lemma lands_bind_ret {A B} (a : B) (f : B -> M A) s plan :
  lands (f a) s plan -> lands (bind (ret a) f) s plan.
Proof.
  apply (lands_from _ _ s s []); try reflexivity.
  symmetry; apply app_nil_r.
Qed.

Lemma lands_get_collaterals {A} (f : list Collateral -> M A) s plan :
  let cs := collaterals_with_debt (dss (self s)) (world s) in
  lands (f cs)
    (log s (CollateralsToCheck (map (fun c => name (ilk c)) cs))) plan ->
  lands (bind get_collaterals f) s plan.
Proof.
  intros cs.
  apply (lands_from _ _ s
           (log s (CollateralsToCheck (map (fun c => name (ilk c)) cs)))
           [Logged (CollateralsToCheck (map (fun c => name (ilk c)) cs))]);
    reflexivity.
Qed.

Lemma vat_ilk_name w n : name (vat_ilk w n) = n.
Proof. unfold vat_ilk. destruct (vat_ilks w n) as [[? ?] ?]. reflexivity. Qed.

Lemma settle_loop_lands (d : list (string * list Bid)) call s :
  lands
    (for_each (keys d)
       (fun key =>
          i <- read (fun w => vat_ilk w key) ;;
          bs <- item d key ;;
          for_each bs (fun b => transact (call (name i) (id b)))))
    s (settles call d).
Proof.
  unfold settles. apply lands_for_each. intros key s'.
  apply lands_read. rewrite vat_ilk_name. unfold item.
  destruct (dict_get d key) as [bs|].
  - apply lands_bind_ret, lands_for_each_transact.
  - split; [reflexivity|]. exists []. cbn. rewrite app_nil_r.
    split; [reflexivity | apply prefix_refl].
Qed.

Lemma quiet_sent evs :
  Forall (fun e => exists m, e = Logged m) evs -> sent evs = [].
Proof.
  induction 1 as [|e evs [m ->] _ IH]; cbn; [reflexivity | exact IH].
Qed.

Lemma scan_and_skim_lands ilks s :
  lands
    (urns <- get_underwater_urns ilks ;;
     for_each urns (fun u => transact (EndSkim (name (urn_ilk u)) (address u))))
    s (skims (underwater_urns (self s) (world s) ilks)).
Proof.
  destruct (get_underwater_urns_spec ilks s) as [s' [E [Hs Hw]]].
  assert (Hlog : frames (fun e => exists m, e = Logged m)
                   (get_underwater_urns ilks))
    by (apply get_underwater_urns_frames; eauto).
  destruct (Hlog s) as [_ [evs [Ht Hq]]].
  rewrite E in Ht. cbn [snd] in Ht.
  eapply (lands_from _ _ s s' evs).
  - unfold bind. rewrite E. reflexivity.
  - assumption.
  - assumption.
  - assumption.
  - apply quiet_sent, Hq.
  - rewrite <- Hw. apply lands_for_each_transact.
Qed.

Lemma facilitate_processing_period_lands s :
  lands facilitate_processing_period s (facilitation_calls (self s) (world s)).
Proof.
  unfold facilitate_processing_period.
  apply lands_info, lands_get_collaterals. cbv zeta.
  apply lands_get_self, lands_read.
  cbn [log self world trace].
  set (cs := collaterals_with_debt (dss (self s)) (world s)).
  set (a := all_active_auctions (dss (self s)) (world s)).
  unfold facilitation_calls, first_calls. cbv zeta. fold cs a.
  rewrite <- !app_assoc.
  apply lands_bind.
  { unfold yank_auctions, yanks.
    apply lands_bind; [| intros _ s1 _ _]; apply lands_for_each_transact. }
  intros _ s1 Hs1 Hw1.
  apply lands_bind.
  { unfold cages. rewrite <- (map_map ilk (fun i => EndCage (name i))).
    apply lands_for_each_transact. }
  intros _ s2 Hs2 Hw2.
  apply lands_bind; [apply settle_loop_lands|].
  intros _ s3 Hs3 Hw3.
  apply lands_bind; [apply settle_loop_lands|].
  intros _ s4 Hs4 Hw4.
  unfold log in *. cbn [self world] in *.
  assert (Hself : self s4 = self s) by congruence.
  assert (Hworld : world s4 =
            chain_after
              (yanks a ++ cages cs ++ settles EndSnip (clips a) ++
               settles EndSkip (flips a)) (world s)).
  { rewrite !chain_after_app. congruence. }
  rewrite <- Hworld, <- Hself.
  apply scan_and_skim_lands.
Qed.

Lemma block_step_lands k w m s' plan :
  process_block (mkState k w []) = m s' ->
  sent (trace s') = [] ->
  lands m s' plan ->
  match reply (block_step k w) with
  | Ok _ => sent (events (block_step k w)) = plan
  | Exc => prefix (sent (events (block_step k w))) plan
  end.
Proof.
  intros E Hpre [_ [evs [Ht Hr]]]. unfold block_step. rewrite E.
  destruct (m s') as [r s2]. cbn [fst snd reply events] in *.
  rewrite Ht, sent_app, Hpre. cbn [app].
  destruct r; [destruct Hr as [Hr _]|]; exact Hr.
Qed.

Lemma facilitating_block k w :
  facilitates (block_step k w) = true ->
  match reply (block_step k w) with
  | Ok _ => sent (events (block_step k w)) = facilitation_calls k w
  | Exc => prefix (sent (events (block_step k w))) (facilitation_calls k w)
  end.
Proof.
  intros Hfac.
  rewrite step_facilitates in Hfac.
  repeat (apply andb_prop in Hfac; destruct Hfac as [Hfac ?]).
  assert (Hl : end_live w = false) by (destruct (end_live w); [discriminate | reflexivity]).
  assert (Hf : cageFacilitated k = false)
    by (destruct (cageFacilitated k); [discriminate | reflexivity]).
  zbool.
  eapply block_step_lands.
  - apply process_block_facilitation; assumption.
  - reflexivity.
  - apply (facilitate_processing_period_lands
             (mkState (set_cageFacilitated true k) w _)).
Qed.

(** X7. The whole work list of a block that facilitates, in order: the yanks
    of the flapper's then the flopper's bids, [End.cage] per collateral type
    with debt, [End.snip] per sale gathered from the clippers, [End.skip] per
    bid gathered from the flippers, and [End.skim] per underwater urn; the
    auctions and the collateral types are read when the phase starts, the
    urns only once the other calls have been submitted.  A block that a call
    cuts short has submitted the first few of these. *)
Theorem facilitation_work_list k w :
  facilitates (block_step k w) = true ->
  match reply (block_step k w) with
  | Ok _ => sent (events (block_step k w)) = facilitation_calls k w
  | Exc => prefix (sent (events (block_step k w))) (facilitation_calls k w)
  end.
Proof. exact (facilitating_block k w). Qed.

(** X6. A call that fails (the node answers [None]) does not stop a phase.
    On a node that never raises, a block that facilitates returns after the
    whole work list and a block that thaws returns after the whole thaw
    phase and the burn, whether or not any of the calls goes through; the
    only block that does not return is one of the processing wait whose
    thaw time is no datetime, and it has submitted nothing. *)
Theorem failed_calls_do_not_stop_phase k w :
  (forall tx w', snd (node tx w') <> Raised) ->
  (reply (block_step k w) = Ok tt \/
   raises_in_wait k w (events (block_step k w))) /\
  (facilitates (block_step k w) = true ->
   reply (block_step k w) = Ok tt /\
   sent (events (block_step k w)) = facilitation_calls k w) /\
  (thaws (block_step k w) = true ->
   reply (block_step k w) = Ok tt /\
   sent (events (block_step k w)) = thaw_order k w).
Proof.
  intros Hnode.
  assert (Hend : reply (block_step k w) = Ok tt \/
                 raises_in_wait k w (events (block_step k w))).
  { pose proof (block_step_ended k w) as He.
    destruct (reply (block_step k w)) as [[]|]; [left; reflexivity|].
    destruct He as [[pre [tx [w' [_ [Hw _]]]]]|Hwait]; [|right; exact Hwait].
    exfalso. exact (Hnode tx w' Hw). }
  split; [exact Hend|]. split.
  - intros Hfac.
    assert (Hok : reply (block_step k w) = Ok tt).
    { destruct Hend as [Hok|Hwait]; [exact Hok|].
      destruct Hwait as (_ & _ & _ & _ & _ & Hev).
      unfold facilitates in Hfac. rewrite Hev in Hfac. discriminate. }
    split; [exact Hok|].
    pose proof (facilitating_block k w Hfac) as Hsent.
    rewrite Hok in Hsent. exact Hsent.
  - intros Hthaw.
    assert (Hok : reply (block_step k w) = Ok tt).
    { destruct Hend as [Hok|Hwait]; [exact Hok|].
      destruct Hwait as (_ & _ & _ & _ & _ & Hev).
      unfold thaws in Hthaw. rewrite Hev in Hthaw. discriminate. }
    split; [exact Hok|].
    apply step_thaws in Hthaw. destruct Hthaw as (He & Hl & Hc & Hf & Ht).
    destruct (thaw_block k w He Hl Hc Hf Ht) as [_ Hsent].
    rewrite Hok in Hsent. exact Hsent.
Qed.

(** *** What is gathered, per collateral type *)

Lemma dict_set_fresh {V} (d : list (string * V)) key v :
  ~ In key (keys d) -> dict_set d key v = d ++ [(key, v)].
Proof.
  induction d as [|[k' v'] d IH]; cbn; intros H; [reflexivity|].
  destruct (String.eqb_spec k' key) as [->|Hne].
  - exfalso. apply H. left. reflexivity.
  - rewrite IH; [reflexivity|]. intros Hin. apply H. right. assumption.
Qed.

Lemma keys_app {V} (d1 d2 : list (string * V)) :
  keys (d1 ++ d2) = keys d1 ++ keys d2.
Proof. apply map_app. Qed.

Lemma gather_fold w cs : forall c0 f0,
  NoDup (map (fun c => name (ilk c)) cs) ->
  (forall c, In c cs ->
     ~ In (name (ilk c)) (keys c0) /\ ~ In (name (ilk c)) (keys f0)) ->
  fold_left
    (fun '(clips, flips) collateral =>
       match clipper collateral, flipper collateral with
       | Some c, _ =>
           (dict_set clips (name (ilk collateral))
              (cage_active_auctions w (Clipper c)), flips)
       | None, Some f =>
           (clips, dict_set flips (name (ilk collateral))
                     (cage_active_auctions w (Flipper f)))
       | None, None => (clips, flips)
       end)
    cs (c0, f0)
  = (c0 ++ clip_entries w cs, f0 ++ flip_entries w cs).
Proof.
  induction cs as [|c cs IH]; intros c0 f0 Hnd Hfresh.
  - cbn. rewrite !app_nil_r. reflexivity.
  - inversion Hnd as [|? ? Hc Hnd']; subst.
    destruct (Hfresh c (or_introl eq_refl)) as [Hc0 Hf0].
    assert (Hrest : forall v c', In c' cs ->
              ~ In (name (ilk c')) (keys (c0 ++ [(name (ilk c), v)])) /\
              ~ In (name (ilk c')) (keys (f0 ++ [(name (ilk c), v)])) /\
              ~ In (name (ilk c')) (keys c0) /\ ~ In (name (ilk c')) (keys f0)).
    { intros v c' Hin. destruct (Hfresh c' (or_intror Hin)) as [H1 H2].
      assert (Hne : name (ilk c) <> name (ilk c')).
      { intros E. apply Hc. rewrite E.
        apply (in_map (fun c => name (ilk c))). assumption. }
      rewrite !keys_app, !in_app_iff. cbn. tauto. }
    cbn [fold_left clip_entries flip_entries flat_map].
    destruct (clipper c) as [a|]; [|destruct (flipper c) as [f|]].
    + rewrite dict_set_fresh by assumption.
      rewrite IH; [| assumption |].
      * cbn [app]. rewrite <- !app_assoc. destruct (flipper c); reflexivity.
      * intros c' Hin. destruct (Hrest (cage_active_auctions w (Clipper a)) c' Hin).
        tauto.
    + rewrite dict_set_fresh by assumption.
      rewrite IH; [| assumption |].
      * rewrite cage_active_auctions_flipper. cbn [app].
        rewrite <- !app_assoc. reflexivity.
      * intros c' Hin. destruct (Hrest (cage_active_auctions w (Flipper f)) c' Hin).
        tauto.
    + rewrite IH; [reflexivity | assumption |].
      intros c' Hin. destruct (Hrest [] c' Hin). tauto.
Qed.

Lemma all_active_auctions_entries d w :
  distinct_names d ->
  clips (all_active_auctions d w) = clip_entries w (collaterals d) /\
  flips (all_active_auctions d w) = flip_entries w (collaterals d).
Proof.
  intros Hnd. unfold all_active_auctions.
  rewrite (gather_fold w (collaterals d) [] [] Hnd); [split; reflexivity|].
  intros c _. split; intros [].
Qed.

(** X8. When the collateral types have names of their own,
    [all_active_auctions] gathers, in the deployment's order, the sales of
    the clipper of every collateral type that has one and the skippable bids
    of the flipper of every type that has a flipper and no clipper, whatever
    the type's name or debt; the flipper of a type that has both is not
    looked at. *)
Theorem all_active_auctions_by_collateral d w :
  distinct_names d ->
  clips (all_active_auctions d w) = clip_entries w (collaterals d) /\
  flips (all_active_auctions d w) = flip_entries w (collaterals d).
Proof. exact (all_active_auctions_entries d w). Qed.

Lemma dict_get_in {V} (d : list (string * V)) key v :
  NoDup (keys d) -> In (key, v) d -> dict_get d key = Some v.
Proof.
  induction d as [|[k' v'] d IH]; cbn; intros Hnd Hin; [contradiction|].
  inversion Hnd as [|? ? Hk Hnd']; subst.
  destruct Hin as [E | Hin].
  - injection E as -> ->. rewrite String.eqb_refl. reflexivity.
  - destruct (String.eqb_spec k' key) as [->|Hne]; [|auto].
    exfalso. apply Hk. apply (in_map fst) in Hin. exact Hin.
Qed.

Lemma in_keys_clip_entries w cs key :
  In key (keys (clip_entries w cs)) ->
  exists c, In c cs /\ clipper c <> None /\ name (ilk c) = key.
Proof.
  unfold keys, clip_entries. rewrite in_map_iff.
  intros [[k' v] [<- Hin]]. apply in_flat_map in Hin.
  destruct Hin as [c [Hc Hin]]. exists c.
  destruct (clipper c); [|contradiction].
  destruct Hin as [E | []]. injection E as <- _.
  split; [assumption|]. split; [discriminate | reflexivity].
Qed.

Lemma in_keys_flip_entries w cs key :
  In key (keys (flip_entries w cs)) ->
  exists c, In c cs /\ clipper c = None /\ name (ilk c) = key.
Proof.
  unfold keys, flip_entries. rewrite in_map_iff.
  intros [[k' v] [<- Hin]]. apply in_flat_map in Hin.
  destruct Hin as [c [Hc Hin]]. exists c.
  destruct (clipper c); [contradiction|].
  destruct (flipper c); [|contradiction].
  destruct Hin as [E | []]. injection E as <- _. auto.
Qed.

Lemma NoDup_entry_keys (entry : Collateral -> list (string * list Bid)) cs :
  (forall c, entry c = [] \/ exists v, entry c = [(name (ilk c), v)]) ->
  NoDup (map (fun c => name (ilk c)) cs) ->
  NoDup (keys (flat_map entry cs)).
Proof.
  intros Hentry. induction cs as [|c cs IH]; cbn [flat_map map]; intros Hnd.
  - constructor.
  - inversion Hnd as [|? ? Hc Hnd']; subst.
    destruct (Hentry c) as [-> | [v ->]]; cbn [app]; [auto|].
    unfold keys in *. cbn [map fst]. constructor; [|auto].
    intros Hin. apply Hc. apply in_map_iff in Hin.
    destruct Hin as [[k' v'] [E Hin]]. cbn in E. subst k'.
    apply in_flat_map in Hin. destruct Hin as [c' [Hc' Hin]].
    apply in_map_iff. exists c'. split; [|assumption].
    destruct (Hentry c') as [E | [v'' E]]; rewrite E in Hin; [contradiction|].
    destruct Hin as [E' | []]. injection E' as -> _. reflexivity.
Qed.

Lemma NoDup_clip_keys w cs :
  NoDup (map (fun c => name (ilk c)) cs) -> NoDup (keys (clip_entries w cs)).
Proof.
  apply NoDup_entry_keys. intros c. destruct (clipper c); eauto.
Qed.

Lemma NoDup_flip_keys w cs :
  NoDup (map (fun c => name (ilk c)) cs) -> NoDup (keys (flip_entries w cs)).
Proof.
  apply NoDup_entry_keys. intros c.
  destruct (clipper c); [auto|]. destruct (flipper c); eauto.
Qed.

Lemma in_settles call d key bs b :
  NoDup (keys d) -> In (key, bs) d -> In b bs ->
  In (call key (id b)) (settles call d).
Proof.
  intros Hnd Hin Hb. unfold settles. apply in_flat_map. exists key.
  split; [apply (in_map fst) in Hin; exact Hin|].
  rewrite (dict_get_in d key bs Hnd Hin).
  apply (in_map (fun b => call key (id b))). assumption.
Qed.

Lemma in_settles_inv call d tx :
  In tx (settles call d) ->
  exists key i, In key (keys d) /\ tx = call key i.
Proof.
  unfold settles. rewrite in_flat_map. intros [key [Hkey Hin]].
  destruct (dict_get d key); [|contradiction].
  apply in_map_iff in Hin. destruct Hin as [b [<- _]]. eauto.
Qed.

Lemma same_name_same_collateral cs (c c' : Collateral) :
  NoDup (map (fun c => name (ilk c)) cs) ->
  In c cs -> In c' cs -> name (ilk c) = name (ilk c') -> c = c'.
Proof.
  induction cs as [|x cs IH]; cbn [map]; intros Hnd Hc Hc' E; [contradiction|].
  inversion Hnd as [|? ? Hx Hnd']; subst.
  destruct Hc as [-> | Hc], Hc' as [-> | Hc']; auto.
  - exfalso. apply Hx. rewrite E. apply (in_map (fun c => name (ilk c))). assumption.
  - exfalso. apply Hx. rewrite <- E. apply (in_map (fun c => name (ilk c))). assumption.
Qed.

(** X9. In a facilitation phase that runs to its end, with collateral types
    that have names of their own: every sale the clipper of a collateral
    type reports is snipped and every skippable bid of the flipper of a type
    without clipper is skipped, whether or not the type has debt or is SAI;
    no bid of the flipper of a type that also has a clipper is skipped. *)
Theorem settles_by_collateral k w c :
  facilitates (block_step k w) = true ->
  reply (block_step k w) = Ok tt ->
  distinct_names (dss k) ->
  In c (collaterals (dss k)) ->
  let txs := sent (events (block_step k w)) in
  (forall a b, clipper c = Some a -> In b (active_auctions w a) ->
     In (EndSnip (name (ilk c)) (id b)) txs) /\
  (forall f b, clipper c = None -> flipper c = Some f ->
     In b (bids_upto w f) -> skippable b = true ->
     In (EndSkip (name (ilk c)) (id b)) txs) /\
  (forall a i, clipper c = Some a -> ~ In (EndSkip (name (ilk c)) i) txs).
Proof.
  intros Hfac Hok Hnd Hc txs.
  pose proof (facilitating_block k w Hfac) as Hsent.
  rewrite Hok in Hsent. subst txs. rewrite Hsent.
  unfold facilitation_calls, first_calls. cbv zeta.
  destruct (all_active_auctions_entries (dss k) w Hnd) as [-> ->].
  split; [|split].
  - intros a b Ha Hb. rewrite !in_app_iff. left. right. right. left.
    apply (in_settles EndSnip _ (name (ilk c)) (active_auctions w a));
      [apply NoDup_clip_keys, Hnd | | assumption].
    unfold clip_entries. apply in_flat_map. exists c. rewrite Ha.
    split; [assumption | left; reflexivity].
  - intros f b Ha Hf Hb Hskip. rewrite !in_app_iff. left. right. right. right.
    apply (in_settles EndSkip _ (name (ilk c)) (filter skippable (bids_upto w f)));
      [apply NoDup_flip_keys, Hnd | | apply filter_In; auto].
    unfold flip_entries. apply in_flat_map. exists c. rewrite Ha, Hf.
    split; [assumption | left; reflexivity].
  - intros a i Ha. rewrite !in_app_iff.
    intros [[Hin | [Hin | [Hin | Hin]]] | Hin].
    + pose proof (yanks_not_settling (all_active_auctions (dss k) w)) as Hy.
      rewrite Forall_forall in Hy. apply Hy in Hin. destruct Hin; discriminate.
    + pose proof (cages_not_settling (collaterals_with_debt (dss k) w)) as Hcs.
      rewrite Forall_forall in Hcs. apply Hcs in Hin. discriminate.
    + apply in_settles_inv in Hin. destruct Hin as [key [j [_ E]]]. discriminate.
    + apply in_settles_inv in Hin. destruct Hin as [key [j [Hkey E]]].
      injection E as <- _.
      apply in_keys_flip_entries in Hkey. destruct Hkey as [c' [Hc' [Hnone E]]].
      rewrite (same_name_same_collateral _ c c' Hnd Hc Hc' (eq_sym E)) in Ha.
      congruence.
    + unfold skims in Hin. apply in_map_iff in Hin.
      destruct Hin as [u [E _]]. discriminate.
Qed.

(** *** Bounds of the auction lists *)

Lemma range_length lo hi : List.length (range lo hi) = Z.to_nat (hi - lo).
Proof. unfold range. rewrite length_map, length_seq. reflexivity. Qed.

Lemma filter_length {A} (p : A -> bool) l :
  (List.length (filter p l) <= List.length l)%nat.
Proof.
  induction l as [|x l IH]; cbn; [lia|]. destruct (p x); cbn; lia.
Qed.

Lemma filter_bids_upto_bounds (p : Bid -> bool) w a :
  (List.length (filter p (bids_upto w a)) <= Z.to_nat (kicks w a))%nat /\
  (kicks w a <= 0 -> filter p (bids_upto w a) = []).
Proof.
  assert (Hlen : List.length (bids_upto w a) = Z.to_nat (kicks w a)).
  { unfold bids_upto. rewrite length_map, range_length. f_equal. lia. }
  split.
  - rewrite <- Hlen. apply filter_length.
  - intros Hk. destruct (bids_upto w a); [reflexivity|].
    cbn in Hlen. lia.
Qed.

Lemma bids_upto_agree w w' a :
  kicks w' a = kicks w a ->
  (forall i, 1 <= i <= kicks w a -> bids w' a i = bids w a i) ->
  bids_upto w' a = bids_upto w a.
Proof.
  intros Hk Hb. unfold bids_upto. rewrite Hk.
  apply map_ext_in. intros i Hi. apply in_range in Hi. apply Hb. lia.
Qed.

(** X10. The list gathered from a flipper, the flapper or the flopper has at
    most [kicks] bids, and none when no auction was ever kicked; and it is
    read off [kicks] and the bids at ids 1 to [kicks] alone: on a chain with
    the same [kicks] and the same bids at these ids the list is the same,
    whatever is found at id 0 or above [kicks]. *)
Theorem cage_active_auctions_bounds w a :
  Forall
    (fun h =>
       (List.length (cage_active_auctions w h) <= Z.to_nat (kicks w a))%nat /\
       (kicks w a <= 0 -> cage_active_auctions w h = []) /\
       (forall w',
          kicks w' a = kicks w a ->
          (forall i, 1 <= i <= kicks w a -> bids w' a i = bids w a i) ->
          cage_active_auctions w' h = cage_active_auctions w h))
    [Flipper a; Flapper a; Flopper a].
Proof.
  destruct (cage_active_auctions_other w a) as [Hflap Hflop].
  repeat constructor;
    try (rewrite ?cage_active_auctions_flipper, ?Hflap, ?Hflop;
         apply filter_bids_upto_bounds).
  - intros w' Hk Hb.
    rewrite !cage_active_auctions_flipper, (bids_upto_agree w w' a Hk Hb).
    reflexivity.
  - intros w' Hk Hb.
    rewrite (proj1 (cage_active_auctions_other w' a)), Hflap,
      (bids_upto_agree w w' a Hk Hb).
    reflexivity.
  - intros w' Hk Hb.
    rewrite (proj2 (cage_active_auctions_other w' a)), Hflop,
      (bids_upto_agree w w' a Hk Hb).
    reflexivity.
Qed.

(** *** The log of the urn scan *)

Lemma range_cons lo hi : lo < hi -> range lo hi = lo :: range (lo + 1) hi.
Proof.
  intros H. unfold range.
  replace (Z.to_nat (hi - lo)) with (S (Z.to_nat (hi - (lo + 1)))) by lia.
  cbn [seq map]. f_equal; [lia|].
  rewrite <- seq_shift, map_map. apply map_ext. intros n. lia.
Qed.

Lemma range_nil lo hi : hi <= lo -> range lo hi = [].
Proof.
  intros H. unfold range. replace (Z.to_nat (hi - lo)) with 0%nat by lia.
  reflexivity.
Qed.

Lemma scan_urns_trace i urns : forall acc n s,
  trace (snd (fold_each urns (acc, n) (scan_urn i) s)) =
    trace s ++ progress_lines i (n + 1) (n + 1 + Z.of_nat (List.length urns)).
Proof.
  induction urns as [|u urns IH]; intros acc n s.
  - cbn [fold_each List.length]. unfold progress_lines.
    rewrite range_nil by lia. cbn. symmetry. apply app_nil_r.
  - cbn [fold_each]. unfold bind at 1. rewrite scan_urn_spec.
    rewrite IH. unfold progress_lines.
    rewrite (range_cons (n + 1)) by (cbn [List.length]; lia).
    cbn [filter].
    replace (n + 1 + Z.of_nat (List.length (u :: urns)))
      with (n + 1 + 1 + Z.of_nat (List.length urns))
      by (cbn [List.length]; lia).
    destruct ((n + 1) mod 100 =? 0); cbn [map log trace];
      rewrite <- ?app_assoc; reflexivity.
Qed.

Lemma scan_ilks_trace k ilks : forall acc s,
  trace (snd (fold_each ilks acc (scan_ilk k) s)) =
    trace s ++ flat_map (scan_lines k (world s)) ilks.
Proof.
  induction ilks as [|i ilks IH]; intros acc s.
  - cbn. symmetry. apply app_nil_r.
  - cbn [fold_each flat_map]. unfold scan_ilk at 1.
    unfold bind at 1. rewrite bind_read, bind_info.
    set (s0 := mkState (self s) (world s)
                 (trace s ++
                  [Logged (Collected
                             (Z.of_nat (List.length (get_urns k (world s) i)))
                             (name i))])).
    destruct (scan_urns_spec i (get_urns k (world s) i) acc 0 s0)
      as [s1 [E1 [Hs1 Hw1]]].
    pose proof (scan_urns_trace i (get_urns k (world s) i) acc 0 s0) as Ht1.
    unfold bind at 1. rewrite E1 in *. unfold ret at 1. cbn [fst snd] in *.
    rewrite IH, Ht1, Hw1. subst s0. cbn [trace world].
    unfold scan_lines. cbv zeta. rewrite <- !app_assoc.
    replace (0 + 1 + Z.of_nat (List.length (get_urns k (world s) i)))
      with (Z.of_nat (List.length (get_urns k (world s) i)) + 1) by lia.
    reflexivity.
Qed.

(** X11. What [get_underwater_urns] logs: for each ilk in turn the number of
    urns collected, then one progress line per hundred urns seen (at the
    100th, the 200th, ...), the count starting again with every ilk; with no
    ilk to scan it logs nothing. *)
Theorem scan_progress_log ilks s :
  trace (snd (get_underwater_urns ilks s)) =
    trace s ++ flat_map (scan_lines (self s) (world s)) ilks.
Proof.
  unfold get_underwater_urns. rewrite bind_get_self.
  apply scan_ilks_trace.
Qed.

(** *** The first blocks of a run *)

Lemma confirmations_at blocks : forall k j st,
  nth_error (history k blocks) j = Some st ->
  confirmations (before st) <= confirmations k + Z.of_nat j.
Proof.
  induction blocks as [|w blocks IH]; intros k j st Hj.
  - destruct j; discriminate.
  - destruct (terminated k) eqn:Hterm.
    + rewrite history_terminated in Hj by assumption. destruct j; discriminate.
    + rewrite history_cons in Hj by assumption.
      destruct j as [|j]; cbn [nth_error] in Hj.
      * injection Hj as <-. rewrite block_step_before. lia.
      * apply IH in Hj. rewrite step_confirmations in Hj.
        destruct (_ && _) in Hj; lia.
Qed.

(** X12. Whatever the chain says and whatever the arguments, the keeper
    submits no call in the first 12 blocks of a run: it counts its 12
    confirmations afresh after every start, also when started with
    [--previous-cage] on a chain shut down long ago. *)
Theorem first_twelve_blocks_quiet args d blocks j st :
  nth_error (history (init args d) blocks) j = Some st ->
  (j < 12)%nat ->
  sent (events st) = [].
Proof.
  intros Hj Hlt.
  pose proof (confirmations_at blocks (init args d) j st Hj) as Hc.
  cbn [init confirmations] in Hc.
  pose proof (history_steps blocks (init args d)) as Hsteps.
  rewrite Forall_forall in Hsteps.
  pose proof (Hsteps st (nth_error_In _ _ Hj)) as E.
  destruct (sent (events st)) as [|tx txs] eqn:Hsent; [reflexivity|].
  exfalso.
  destruct (no_calls_unless_final (before st) (at_block st)) as (_ & _ & H12 & _).
  - rewrite <- E, Hsent. discriminate.
  - lia.
Qed.

End Keeper.

(** ** The keeper on the example deployment *)

(** Started without [--previous-cage], the keeper finds the shutdown final
    at blocks 13, 14 and 15 and facilitates at block 13 alone. *)
Example facilitation_at_block_13 :
  let h := history ex_node (init ex_arguments ex_dss) (repeat ex_world 15) in
  indices final_block h = [12; 13; 14]%nat /\
  indices facilitates h = [12]%nat /\
  indices thaws h = [13; 14]%nat.
Proof. vm_compute. repeat split. Qed.

(** C1 (counterexample). Started with [--previous-cage], the keeper reaches
    12 confirmations at its 13th block and facilitates neither there nor
    later. *)
Lemma previous_cage_skips_facilitation :
  ~ facilitates_at_first_final
      (history ex_node (init ex_arguments_previous_cage ex_dss)
         (repeat ex_world 13)).
Proof. unfold facilitates_at_first_final. vm_compute. discriminate. Qed.

(** C3 (counterexample). Blocks 14 and 15 of a run both submit the thaw and
    the burn. *)
Lemma thaw_submitted_twice :
  ~ thawed_is_terminal
      (history ex_node (init ex_arguments ex_dss) (repeat ex_world 15)).
Proof.
  intros H.
  assert (E : thaws (block_step ex_node ex_facilitated ex_world) = false).
  { apply (H 13%nat 14%nat (block_step ex_node ex_facilitated ex_world)).
    - vm_compute. reflexivity.
    - vm_compute. reflexivity.
    - lia.
    - vm_compute. tauto.
    - vm_compute. tauto. }
  vm_compute in E. discriminate.
Qed.

(** C3 (amended) on blocks 14 and 15 of that run. *)
Lemma thaw_repeats_witness :
  let st := block_step ex_node ex_facilitated ex_world in
  sent (events st) = thaw_order (before st) (at_block st) /\
  In EndThaw (sent (events st)) /\ In EsmBurn (sent (events st)).
Proof.
  cbv zeta.
  apply (thaw_repeats ex_node (init ex_arguments ex_dss) (repeat ex_world 15)
           13 14 (block_step ex_node ex_facilitated ex_world));
    vm_compute; reflexivity.
Defined.

(** C4 (the code at the failing input). With [--max-errors 1] and a node on
    which every call fails, the 13th block submits the facilitation calls and
    all of them fail; the counter of errors is still 0 afterwards, and the
    14th block runs [check_cage] instead of terminating the keeper. *)
Theorem failed_calls_are_not_counted :
  let h := history ex_node_failing (init ex_arguments_one_error ex_dss)
             (repeat ex_world 14) in
  exists st13 st14,
    nth_error h 12 = Some st13 /\ nth_error h 13 = Some st14 /\
    In (Sent (EndCage "ETH-A") Failed) (events st13) /\
    max_errors (after st13) = 1 /\ errors (after st13) = 0 /\
    In (Logged (CheckingCage 7)) (events st14) /\
    terminated (after st14) = false.
Proof.
  cbv zeta. eexists. eexists.
  split; [vm_compute; reflexivity|].
  split; [vm_compute; reflexivity|].
  vm_compute. tauto.
Qed.

(** C5 on the two ETH-A positions: the one without collateral is flagged,
    the other is not. *)
Lemma underwater_classification_witness :
  exists flagged s',
    get_underwater_urns [Ilk_named "ETH-A"]
      (mkState ex_final ex_world []) = (Ok flagged, s') /\
    In (refreshed ex_world
          (mkUrn "0xU2"%string (Ilk_named "ETH-A") 0 (5 * 10 ^ 18))) flagged /\
    ~ In (refreshed ex_world
            (mkUrn "0xU1"%string (Ilk_named "ETH-A") (10 * 10 ^ 18) (5 * 10 ^ 18)))
        flagged.
Proof.
  destruct (underwater_classification [Ilk_named "ETH-A"]
              (mkState ex_final ex_world []) (Ilk_named "ETH-A")
              (mkUrn "0xU2"%string (Ilk_named "ETH-A") 0 (5 * 10 ^ 18)))
    as [flagged [s' [E [Hiff [_ Hall]]]]].
  - left. reflexivity.
  - right. left. reflexivity.
  - exists flagged, s'. split; [exact E|]. split.
    + apply Hiff. vm_compute. reflexivity.
    + intros Hin. apply Hall in Hin.
      destruct Hin as [i' [u' [_ [_ [_ Hw]]]]].
      vm_compute in Hw. discriminate.
Defined.


(** C8 (counterexample). SAI has debt, the facilitation phase runs to its
    end, and [End.cage] is not submitted for SAI. *)
Lemma sai_is_not_caged :
  facilitates (block_step ex_node ex_final ex_world) = true /\
  reply (block_step ex_node ex_final ex_world) = Ok tt /\
  ~ cages_every_indebted (block_step ex_node ex_final ex_world).
Proof.
  split; [vm_compute; reflexivity|]. split; [vm_compute; reflexivity|].
  intros H.
  specialize (H (mkCollateral (Ilk_named "SAI") None None)).
  assert (Hin : In (EndCage "SAI")
                  (sent (events (block_step ex_node ex_final ex_world)))).
  { apply H.
    - vm_compute. tauto.
    - vm_compute. reflexivity. }
  vm_compute in Hin.
  repeat (destruct Hin as [Hin | Hin]; [discriminate|]). exact Hin.
Qed.

(** C8 (amended) on the block that facilitates: ETH-A is caged once. *)
Lemma cages_debt_before_settling_witness :
  exists pre post,
    sent (events (block_step ex_node ex_final ex_world)) =
      pre ++ EndCage "ETH-A" :: post /\
    ~ In (EndCage "ETH-A") pre /\ ~ In (EndCage "ETH-A") post /\
    Forall (fun tx => settling_call tx = false) pre.
Proof.
  destruct (cages_debt_before_settling ex_node ex_final ex_world)
    as [rest [_ [_ [_ Honce]]]].
  - vm_compute. reflexivity.
  - apply (Honce eq_refl) with
      (c := mkCollateral (Ilk_named "ETH-A") None (Some "0xF1"%string)).
    + vm_compute.
      repeat (constructor; [cbn; intuition discriminate|]). constructor.
    + left. reflexivity.
    + discriminate.
    + vm_compute. reflexivity.
Defined.

(** C9 (counterexample). BAT-A has a clipper and no debt: the thaw phase runs
    to its end without fixing BAT-A or revoking its clipper's permission. *)
Lemma debt_free_collateral_is_not_fixed :
  thaws (block_step ex_node ex_facilitated ex_world) = true /\
  reply (block_step ex_node ex_facilitated ex_world) = Ok tt /\
  ~ fixes_every_collateral (block_step ex_node ex_facilitated ex_world).
Proof.
  split; [vm_compute; reflexivity|]. split; [vm_compute; reflexivity|].
  intros H.
  destruct (H (mkCollateral (Ilk_named "BAT-A") (Some "0xC1"%string) None))
    as [Hin _].
  - vm_compute. tauto.
  - vm_compute in Hin.
    repeat (destruct Hin as [Hin | Hin]; [discriminate|]). exact Hin.
Qed.

(** C9 (amended) on ETH-A, which has debt and a flipper. *)
Lemma thaw_fixes_collaterals_with_debt_witness :
  In (EndFlow "ETH-A")
    (sent (events (block_step ex_node ex_facilitated ex_world))) /\
  (forall a, None = Some a \/ Some "0xF1"%string = Some a ->
             In (EsmDeny a)
               (sent (events (block_step ex_node ex_facilitated ex_world)))).
Proof.
  apply (thaw_fixes_collaterals_with_debt ex_node ex_facilitated ex_world
           (mkCollateral (Ilk_named "ETH-A") None (Some "0xF1"%string))).
  - vm_compute. reflexivity.
  - vm_compute. reflexivity.
  - left. reflexivity.
  - discriminate.
  - vm_compute. reflexivity.
Defined.

(** C10 on blocks 13 and 14 of the example run. *)
Lemma no_facilitation_retry_witness :
  (exists s1,
     cageFacilitated (self s1) = true /\ sent (trace s1) = [] /\
     process_block ex_node (mkState ex_final ex_world []) =
       facilitate_processing_period ex_node s1) /\
  cageFacilitated (after (block_step ex_node ex_final ex_world)) = true /\
  facilitates (block_step ex_node ex_facilitated ex_world) = false.
Proof.
  apply (no_facilitation_retry ex_node (init ex_arguments ex_dss)
           (repeat ex_world 14) 12 13
           (block_step ex_node ex_final ex_world)
           (block_step ex_node ex_facilitated ex_world));
    vm_compute; reflexivity.
Defined.

(** ** Further properties on the example deployment *)

(** X1 with [--max-errors 0]. *)
Lemma terminates_at_first_block_witness :
  history ex_node (init ex_arguments_no_budget ex_dss) (repeat ex_world 3) =
    [mkStep (init ex_arguments_no_budget ex_dss) ex_world (Ok tt) []
       (set_terminated true (init ex_arguments_no_budget ex_dss))].
Proof.
  apply (terminates_at_first_block ex_node ex_arguments_no_budget ex_dss
           (repeat ex_world 3)).
  vm_compute. discriminate.
Defined.

(** X2 on a run of 15 blocks that all find [live] false. *)
Lemma confirmations_count_caged_blocks_witness :
  confirmations
    (keeper_after ex_node (init ex_arguments ex_dss) (repeat ex_world 15)) =
  Z.min 12 (caged_blocks (repeat ex_world 15)).
Proof.
  apply (confirmations_count_caged_blocks ex_node ex_arguments ex_dss).
  vm_compute. reflexivity.
Defined.


(** X4 on block 14 of the example run, which thaws. *)
Lemma thaw_follows_facilitation_witness :
  facilitates (block_step ex_node ex_facilitated ex_world) = false /\
  exists i st_i,
    (i < 13)%nat /\
    nth_error (history ex_node (init ex_arguments ex_dss) (repeat ex_world 15)) i
      = Some st_i /\
    facilitates st_i = true.
Proof.
  apply (thaw_follows_facilitation ex_node ex_arguments ex_dss
           (repeat ex_world 15) 13 (block_step ex_node ex_facilitated ex_world));
    vm_compute; reflexivity.
Defined.

(** X5 on a block of the wait whose thaw time is past the year 9999. *)
Lemma raise_ends_block_witness :
  reply (block_step ex_node ex_facilitated ex_world_far_thaw) = Exc /\
  events (block_step ex_node ex_facilitated ex_world_far_thaw) =
    [Logged (CheckingCage 7); Logged SystemCaged].
Proof.
  apply (proj2 (raise_ends_block ex_node ex_facilitated ex_world_far_thaw)).
  vm_compute. repeat split.
Defined.

(** X6 on the node on which every call fails. *)
Lemma failed_calls_do_not_stop_phase_witness :
  let st := block_step ex_node_failing ex_facilitated ex_world in
  (reply st = Ok tt \/ raises_in_wait ex_facilitated ex_world (events st)) /\
  (facilitates st = true ->
   reply st = Ok tt /\
   sent (events st) = facilitation_calls ex_node_failing ex_facilitated ex_world) /\
  (thaws st = true ->
   reply st = Ok tt /\ sent (events st) = thaw_order ex_facilitated ex_world).
Proof.
  apply (failed_calls_do_not_stop_phase ex_node_failing ex_facilitated ex_world).
  intros tx w'. cbn. discriminate.
Defined.

(** X7 on the block of the example that facilitates. *)
Lemma facilitation_work_list_witness :
  match reply (block_step ex_node ex_final ex_world) with
  | Ok _ =>
      sent (events (block_step ex_node ex_final ex_world)) =
        facilitation_calls ex_node ex_final ex_world
  | Exc =>
      prefix (sent (events (block_step ex_node ex_final ex_world)))
        (facilitation_calls ex_node ex_final ex_world)
  end.
Proof.
  apply (facilitation_work_list ex_node ex_final ex_world).
  vm_compute. reflexivity.
Defined.

Lemma ex_dss_distinct_names : distinct_names ex_dss.
Proof.
  unfold distinct_names. cbn.
  repeat (constructor; [cbn; intuition discriminate|]). constructor.
Defined.

(** X8 on the example deployment. *)
Lemma all_active_auctions_by_collateral_witness :
  clips (all_active_auctions ex_dss ex_world) =
    clip_entries ex_world (collaterals ex_dss) /\
  flips (all_active_auctions ex_dss ex_world) =
    flip_entries ex_world (collaterals ex_dss).
Proof.
  apply (all_active_auctions_by_collateral ex_dss ex_world).
  exact ex_dss_distinct_names.
Defined.

(** X9 on BAT-A, which has a clipper and no debt: its sale is snipped. *)
Lemma settles_by_collateral_witness :
  In (EndSnip "BAT-A" 2)
    (sent (events (block_step ex_node ex_final ex_world))).
Proof.
  destruct (settles_by_collateral ex_node ex_final ex_world
              (mkCollateral (Ilk_named "BAT-A") (Some "0xC1"%string) None))
    as [Hsnip _].
  - vm_compute. reflexivity.
  - vm_compute. reflexivity.
  - exact ex_dss_distinct_names.
  - right. left. reflexivity.
  - apply (Hsnip "0xC1"%string (ex_bids 2)); [reflexivity | left; reflexivity].
Defined.

(** X13 on a block of the example that thaws. *)
Lemma thaw_phase_in_order_witness :
  thaw_due ex_world = true /\
  match reply (block_step ex_node ex_facilitated ex_world) with
  | Ok _ =>
      sent (events (block_step ex_node ex_facilitated ex_world)) =
        thaw_order ex_facilitated ex_world
  | Exc =>
      prefix (sent (events (block_step ex_node ex_facilitated ex_world)))
        (thaw_order ex_facilitated ex_world)
  end.
Proof.
  apply (thaw_phase_in_order ex_node ex_facilitated ex_world).
  vm_compute. reflexivity.
Defined.

(** X12 on the fifth block of the example run. *)
Lemma first_twelve_blocks_quiet_witness :
  sent (events (block_step ex_node
                  (set_confirmations 4 (init ex_arguments ex_dss)) ex_world))
  = [].
Proof.
  apply (first_twelve_blocks_quiet ex_node ex_arguments ex_dss
           (repeat ex_world 15) 4).
  - vm_compute. reflexivity.
  - lia.
Defined.
